(** * The iko ledger engine (src/iko/blockchain.go)

    A shallow embedding of the ledger engine of the kitty wallet: the
    transaction checker, injection, start-up replay, pagination, engine
    construction and the background dispatcher, together with the
    statements of the specification that concern them.

    The engine talks to two stores through the interfaces [ChainDB] and
    [StateDB] and to the transaction methods [Verify], [IsKittyGen] and
    [Hash].  Those live in other files of the repository; they are modelled
    here from the specification (sections 4.1 to 4.3) and every such
    definition says so.  Hashing and signature checking belong to the
    skycoin cipher library and are taken as an interface ([Cipher]).

    The older engine of package [kchain] is embedded next to it, over an
    interface of its own collaborators, as far as its injection goes. *)

From stdpp Require Import gmap list.
From Stdlib Require Import NArith Lia.

Local Open Scope N_scope.

(** ** Machine integers *)

(** Go's [uint64]: a natural number below [2^64]; arithmetic wraps. *)
Definition uint64_mod : N := 2 ^ 64.

Definition wrap64 (n : N) : N := n mod uint64_mod.

Definition mul64 (a b : N) : N := wrap64 (a * b).

Definition add64 (a b : N) : N := wrap64 (a + b).

(** ** Transactions *)

(** The identifiers of the source ([KittyID], [TxHash], [cipher.Address],
    [cipher.PubKey], [cipher.Sig]) are fixed-width byte strings; each is
    modelled by the number it encodes. *)
Abbreviation TxHash := N (only parsing).
Abbreviation Address := N (only parsing).
Abbreviation PubKey := N (only parsing).

(** The fields the engine reads: [tx.KittyID], [tx.In], [tx.Out]; [Sig] is
    the signature of section 3 of the specification.  The hash of a
    transaction is not stored: the engine always obtains it by calling
    [tx.Hash()]. *)
Record Transaction : Type := mkTx {
  KittyID : N;
  In : TxHash;
  Out : Address;
  Sig : N
}.

#[global] Instance Transaction_eq_dec : EqDecision Transaction.
Proof. solve_decision. Defined.

(** The all-zero hash, the [input_ref] of a creation transaction. *)
Definition EmptyTxHash : TxHash := 0.

(** Error kinds of section 7 of the specification, and the error of the
    cipher library's public-key check. *)
Inductive Error : Type :=
| MalformedTransaction
| UnauthorizedCreation
| InvalidSignature
| StaleReference
| DuplicateAsset
| StaleOwnership
| NotFound
| InvalidPageSize
| InvalidPubKey.

#[global] Instance Error_eq_dec : EqDecision Error.
Proof. solve_decision. Defined.

(** Run-time faults of Go that the engine's code can raise. *)
Inductive Fault : Type :=
| NilDereference
| NilCall
| DivideByZero
| CloseOfClosedChannel
| HookFailed (e : Error).

(** What a call produces: a value, a returned [error], or a panic. *)
Inductive Outcome (A : Type) : Type :=
| Done (a : A)
| Fail (e : Error)
| Panic (f : Fault).

Arguments Done {A} a.
Arguments Fail {A} e.
Arguments Panic {A} f.

(** The cipher library: content hash, signature checks against a public
    key and against an address, and [PubKey.Verify]. *)
Class Cipher : Type := {
  Hash : Transaction -> TxHash;
  SigByPubKey : PubKey -> Transaction -> bool;
  SigByAddress : Address -> Transaction -> bool;
  PubKeyVerify : PubKey -> option Error
}.

(** ** The ownership projection ([StateDB]) *)

Record KittyState : Type := mkKittyState {
  Owner : Address;
  Unspent : TxHash
}.

#[global] Instance KittyState_eq_dec : EqDecision KittyState.
Proof. solve_decision. Defined.

Record StateDB : Type := mkStateDB {
  kitties : gmap N KittyState;
  addresses : gmap N (list N)
}.

Definition emptyState : StateDB := mkStateDB ∅ ∅.

(** Modelled from the spec: [StateDB.GetKittyState] is missing from the
    sources; section 4.3 gives the asset record holding the owner and the
    unspent hash. *)
Definition GetKittyState (s : StateDB) (kittyID : N) : option KittyState :=
  kitties s !! kittyID.

(** Modelled from the spec: [StateDB.GetKittyUnspentTx] is missing from the
    sources; it is [unspent_of] of section 4.3. *)
Definition GetKittyUnspentTx (s : StateDB) (kittyID : N) : option TxHash :=
  Unspent <$> kitties s !! kittyID.

(** Modelled from the spec: [StateDB.GetAddressState] is missing from the
    sources; it is [assets_of] of section 4.3. *)
Definition GetAddressState (s : StateDB) (address : Address) : list N :=
  default [] (addresses s !! address).

Definition holdKitty (kittyID : N) (address : Address)
    (m : gmap N (list N)) : gmap N (list N) :=
  <[address := default [] (m !! address) ++ [kittyID]]> m.

Definition dropKitty (kittyID : N) (address : Address)
    (m : gmap N (list N)) : gmap N (list N) :=
  <[address := filter (λ k, k ≠ kittyID) (default [] (m !! address))]> m.

(** Modelled from the spec: [StateDB.AddKitty] is missing from the sources;
    it is [apply_creation] of section 4.3, which fails with
    [DuplicateAsset] when the asset already exists and otherwise records
    owner and unspent hash, the address record in lock-step. *)
Definition AddKitty (txHash : TxHash) (kittyID : N) (out : Address)
    (s : StateDB) : Error + StateDB :=
  match kitties s !! kittyID with
  | Some _ => inl DuplicateAsset
  | None =>
      inr (mkStateDB (<[kittyID := mkKittyState out txHash]> (kitties s))
                     (holdKitty kittyID out (addresses s)))
  end.

(** Modelled from the spec: [StateDB.MoveKitty] is missing from the
    sources; it is [apply_transfer] of section 4.3, which fails with
    [StaleOwnership] when the asset is unknown or its live owner is not the
    expected prior output. *)
Definition MoveKitty (txHash : TxHash) (kittyID : N) (from to : Address)
    (s : StateDB) : Error + StateDB :=
  match kitties s !! kittyID with
  | None => inl StaleOwnership
  | Some ks =>
      if decide (Owner ks = from) then
        inr (mkStateDB (<[kittyID := mkKittyState to txHash]> (kitties s))
                       (holdKitty kittyID to
                          (dropKitty kittyID from (addresses s))))
      else inl StaleOwnership
  end.

(** ** The chain log ([ChainDB]) *)

(** The stored transactions, the one of sequence [i] at position [i], and
    the notifications of [TxChan] that no receiver has taken yet. *)
Record ChainDB : Type := mkChainDB {
  txs : list Transaction;
  txChan : list Transaction
}.

Definition emptyChain : ChainDB := mkChainDB [] [].

(** Modelled from the spec: [ChainDB.Len] is missing from the sources; it
    is [length() -> u64] of section 4.2. *)
Definition Len (db : ChainDB) : N := wrap64 (N.of_nat (length (txs db))).

(** Modelled from the spec: [ChainDB.Head] is missing from the sources; it
    is [head()] of section 4.2, the most recent transaction. *)
Definition Head (db : ChainDB) : Error + Transaction :=
  match last (txs db) with
  | Some tx => inr tx
  | None => inl NotFound
  end.

(** Modelled from the spec: [ChainDB.GetTxOfSeq] is missing from the
    sources; it is [get_by_sequence] of section 4.2. *)
Definition GetTxOfSeq (db : ChainDB) (seq : N) : Error + Transaction :=
  match txs db !! N.to_nat seq with
  | Some tx => inr tx
  | None => inl NotFound
  end.

(** Modelled from the spec: [ChainDB.GetTxOfHash] is missing from the
    sources; it is [get_by_hash] of section 4.2.  The hash identifies the
    transaction; were two stored transactions to share a digest, the one
    stored first is returned. *)
Definition GetTxOfHash `{Cipher} (db : ChainDB) (txHash : TxHash)
    : Error + Transaction :=
  match list_find (λ tx, Hash tx = txHash) (txs db) with
  | Some (_, tx) => inr tx
  | None => inl NotFound
  end.

(** The transactions of sequences [start], [start + 1], ..., at most
    [count] of them, fewer where the log ends. *)
Fixpoint seqRange (l : list Transaction) (start count : N)
    : list Transaction :=
  match l with
  | [] => []
  | tx :: l' =>
      if start =? 0 then
        if count =? 0 then [] else tx :: seqRange l' 0 (count - 1)
      else seqRange l' (start - 1) count
  end.

(** Modelled from the spec: [ChainDB.GetTxsOfSeqRange] is missing from the
    sources; it is [get_range(start_seq, count)] of section 4.2, which
    returns fewer than [count] items where the range exceeds the log and
    never an error for that reason. *)
Definition GetTxsOfSeqRange (db : ChainDB) (startSeq pageSize : N)
    : Error + list Transaction :=
  inr (seqRange (txs db) startSeq pageSize).

(** The physical append: the transaction takes the next sequence number
    and is emitted on the notification channel. *)
Definition appendTx (tx : Transaction) (db : ChainDB) : ChainDB :=
  mkChainDB (txs db ++ [tx]) (txChan db ++ [tx]).

(** ** Verification rules *)

(** Modelled from the spec: [Transaction.Verify] is missing from the
    sources; these are the rules of section 4.1.  Rule 1 compares a claimed
    hash with the content; the engine never reads a claimed hash, it calls
    [tx.Hash()], so every [Transaction] value meets rule 1.  Rule 2: with no
    predecessor the candidate must be a creation, [input_ref] empty and the
    signature valid under the issuer key.  Rule 3: with a predecessor,
    [input_ref] must be its hash and the signature valid under the owner
    recorded in its output, checked in the order the rule lists them. *)
Definition Verify `{Cipher} (tx : Transaction) (unspent : option Transaction)
    (creator : PubKey) : option Error :=
  match unspent with
  | None =>
      if decide (In tx = EmptyTxHash) then
        if SigByPubKey creator tx then None else Some UnauthorizedCreation
      else Some UnauthorizedCreation
  | Some prev =>
      if decide (In tx = Hash prev) then
        if SigByAddress (Out prev) tx then None else Some InvalidSignature
      else Some StaleReference
  end.

(** Modelled from the spec: [Transaction.IsKittyGen] is missing from the
    sources; a creation transaction has an empty [input_ref] and is signed
    by the issuer (section 4.1, rule 2, and the glossary). *)
Definition IsKittyGen `{Cipher} (tx : Transaction) (creator : PubKey) : bool :=
  bool_decide (In tx = EmptyTxHash) && SigByPubKey creator tx.

(** ** The engine *)

(** [TxAction]: the side-effect hook, [None] for Go's [nil]. *)
Record BlockChainConfig : Type := mkConfig {
  CreatorPK : PubKey;
  TxAction : option (Transaction -> option Error)
}.

(** What the engine did to its collaborators, in order of occurrence.  The
    history is only written, never read, by the operations below. *)
Inductive Event : Type :=
| EvVerify (tx : Transaction) (unspent : option Transaction) (creator : PubKey)
| EvApply (tx : Transaction)
| EvAppend (tx : Transaction).

#[global] Instance Event_eq_dec : EqDecision Event.
Proof. solve_decision. Defined.

(** The fields [c], [chain] and [state] of the struct [BlockChain], and the
    history [calls].  The logger only prints; the lock [mux] serialises the
    operations, which therefore run one at a time; [wg] and [quit] belong to
    the dispatcher and are modelled with it. *)
Record BlockChain : Type := mkBlockChain {
  c : BlockChainConfig;
  chain : ChainDB;
  state : StateDB;
  calls : list Event
}.

(** Operations read and write the engine, and end in a value, an error or
    a panic. *)
Definition M (A : Type) : Type := BlockChain -> Outcome A * BlockChain.

#[global] Instance M_ret : MRet M := λ A a bc, (Done a, bc).

#[global] Instance M_bind : MBind M := λ A B f m bc,
  match m bc with
  | (Done a, bc') => f a bc'
  | (Fail e, bc') => (Fail e, bc')
  | (Panic p, bc') => (Panic p, bc')
  end.

Definition gets {A : Type} (f : BlockChain -> A) : M A := λ bc, (Done (f bc), bc).

Definition liftE {A : Type} (r : Error + A) : M A := λ bc,
  match r with
  | inl e => (Fail e, bc)
  | inr a => (Done a, bc)
  end.

Definition returnIf (r : option Error) : M unit := λ bc,
  match r with
  | Some e => (Fail e, bc)
  | None => (Done (), bc)
  end.

Definition panic {A : Type} (p : Fault) : M A := λ bc, (Panic p, bc).

Definition liftO {A : Type} (r : Outcome A) : M A := λ bc, (r, bc).

Definition emit (ev : Event) : M unit := λ bc,
  (Done (), mkBlockChain (c bc) (chain bc) (state bc) (calls bc ++ [ev])).

Definition setState (s : StateDB) : M unit := λ bc,
  (Done (), mkBlockChain (c bc) (chain bc) s (calls bc)).

Definition setChain (db : ChainDB) : M unit := λ bc,
  (Done (), mkBlockChain (c bc) db (state bc) (calls bc)).

Definition TxChecker : Type := Transaction -> M unit.

Section Engine.
Context `{Cipher}.

(** Lines 149 to 156 of [MakeTxChecker]: the unspent transaction of the
    candidate's kitty, fetched from the chain by the recorded hash, [None]
    (Go's nil pointer) when the kitty has no record. *)
Definition lookupUnspent (tx : Transaction) : M (option Transaction) :=
  s ← gets state;
  match GetKittyUnspentTx s (KittyID tx) with
  | Some tempHash =>
      db ← gets chain;
      temp ← liftE (GetTxOfHash db tempHash);
      mret (Some temp)
  | None => mret None
  end.

(** [MakeTxChecker], lines 147 to 183 of [iko/blockchain.go]. *)
Definition MakeTxChecker : TxChecker := λ tx,
  unspent ← lookupUnspent tx;
  creator ← gets (CreatorPK ∘ c);
  emit (EvVerify tx unspent creator);;
  returnIf (Verify tx unspent creator);;
  s ← gets state;
  if IsKittyGen tx creator then
    s' ← liftE (AddKitty (Hash tx) (KittyID tx) (Out tx) s);
    setState s';;
    emit (EvApply tx)
  else
    match unspent with
    | None => panic NilDereference
    | Some u =>
        s' ← liftE (MoveKitty (Hash tx) (KittyID tx) (Out u) (Out tx) s);
        setState s';;
        emit (EvApply tx)
    end.

(** Modelled from the spec: [ChainDB.AddTx] is missing from the sources;
    it is [append(tx, validation_hook)] of section 4.2: the hook is called
    with the candidate before the physical append and must succeed for
    the append to occur. *)
Definition AddTx (tx : Transaction) (check : TxChecker) : M unit :=
  check tx;;
  db ← gets chain;
  setChain (appendTx tx db);;
  emit (EvAppend tx).

(** [InjectTx], lines 140 to 145; the lock makes the call atomic. *)
Definition InjectTx (tx : Transaction) : M unit :=
  AddTx tx MakeTxChecker.

(** The loop of [InitState], lines 65 to 83.  [fuel] bounds the number of
    iterations; [None] means the bound was too small. *)
Fixpoint InitState_loop (fuel : nat) (i : N) (bc : BlockChain)
    : option (Outcome unit * BlockChain) :=
  match fuel with
  | O => None
  | S fuel' =>
      if i <? Len (chain bc) then
        match GetTxOfSeq (chain bc) i with
        | inl e => Some (Fail e, bc)
        | inr tx =>
            match MakeTxChecker tx bc with
            | (Done _, bc') => InitState_loop fuel' (add64 i 1) bc'
            | r => Some r
            end
        end
      else Some (Done (), bc)
  end.

Definition InitState (bc : BlockChain) : option (Outcome unit * BlockChain) :=
  InitState_loop (S (length (txs (chain bc)))) 1 bc.

Definition noAction : Transaction -> option Error := λ _, None.

(** [Prepare], lines 15 to 25, writes through its pointer receiver: the
    configuration it leaves behind is returned with the error. *)
Definition Prepare (cc : BlockChainConfig) : BlockChainConfig * option Error :=
  let cc' :=
    match TxAction cc with
    | None => mkConfig (CreatorPK cc) (Some noAction)
    | Some _ => cc
    end in
  match PubKeyVerify (CreatorPK cc') with
  | Some e => (cc', Some e)
  | None => (cc', None)
  end.

End Engine.

(** ** Pagination *)

Record PaginatedTransactions : Type := mkPage {
  TotalPageCount : N;
  Transactions : list Transaction
}.

(** [totalPageCount], lines 191 to 197.  [len % pageSize] panics in Go
    when [pageSize] is zero. *)
Definition totalPageCount (len pageSize : N) : Outcome N :=
  if pageSize =? 0 then Panic DivideByZero
  else if len mod pageSize =? 0 then Done (len / pageSize)
  else Done (add64 (len / pageSize) 1).

(** [GetTransactionPage], lines 199 to 211. *)
Definition GetTransactionPage (currentPage perPage : N)
    : M PaginatedTransactions :=
  db ← gets chain;
  transactions ← liftE (GetTxsOfSeqRange db (mul64 perPage currentPage) perPage);
  cLen ← gets (Len ∘ chain);
  total ← liftO (totalPageCount cLen perPage);
  mret (mkPage total transactions).

(** ** The dispatcher and the life cycle of the engine *)

(** Where the goroutine [service] is: at its [select], between receiving a
    notification and the return of the hook, returned, or dead by panic. *)
Inductive Dispatcher : Type :=
| Selecting
| Handling (tx : Transaction)
| Returned
| Crashed (p : Fault).

(** A running engine: the struct, whether [quit] is closed, the counter of
    [wg], the dispatcher, and two observations: whether [Close] has
    returned, and the notifications handed to the hook, each with the value
    of that flag at the time. *)
Record Sys : Type := mkSys {
  engine : BlockChain;
  quit : bool;
  wg : nat;
  disp : Dispatcher;
  closeReturned : bool;
  handled : list (Transaction * bool)
}.

Section Lifecycle.
Context `{Cipher}.

(** [NewBlockChain], lines 38 to 63.  [nil, e] is [Fail e]; on success the
    dispatcher has been started ([wg.Add(1)], [go bc.service()]). *)
Definition NewBlockChain (config : BlockChainConfig) (chainDB : ChainDB)
    (stateDB : StateDB) : option (Outcome Sys) :=
  match Prepare config with
  | (_, Some e) => Some (Fail e)
  | (config', None) =>
      let bc := mkBlockChain config' chainDB stateDB [] in
      match InitState bc with
      | None => None
      | Some (Fail e, _) => Some (Fail e)
      | Some (Panic p, _) => Some (Panic p)
      | Some (Done _, bc') => Some (Done (mkSys bc' false 1 Selecting false []))
      end
  end.

(** [Close], lines 85 to 87, is [close(bc.quit)] and nothing else;
    closing a closed channel panics. *)
Definition Close (s : Sys) : Outcome unit * Sys :=
  if quit s then (Panic CloseOfClosedChannel, s)
  else (Done (),
        mkSys (engine s) true (wg s) (disp s) true (handled s)).

(** One turn of the loop of [service] is two moves: the [select], which
    takes either ready case, and the call of the hook. *)
Inductive Move : Type :=
| SelectQuit
| SelectTx
| RunHook.

Definition takeNotification (bc : BlockChain) : option (Transaction * BlockChain) :=
  match txChan (chain bc) with
  | [] => None
  | tx :: rest =>
      Some (tx, mkBlockChain (c bc) (mkChainDB (txs (chain bc)) rest)
                  (state bc) (calls bc))
  end.

(** [service], lines 89 to 103.  [None]: the move is not enabled.  The
    deferred [wg.Done()] runs when [service] returns and when it panics. *)
Definition service (m : Move) (s : Sys) : option Sys :=
  match disp s, m with
  | Selecting, SelectQuit =>
      if quit s then
        Some (mkSys (engine s) (quit s) (pred (wg s)) Returned
                (closeReturned s) (handled s))
      else None
  | Selecting, SelectTx =>
      match takeNotification (engine s) with
      | Some (tx, bc') =>
          Some (mkSys bc' (quit s) (wg s) (Handling tx)
                  (closeReturned s) (handled s))
      | None => None
      end
  | Handling tx, RunHook =>
      let seen := handled s ++ [(tx, closeReturned s)] in
      match TxAction (c (engine s)) with
      | None =>
          Some (mkSys (engine s) (quit s) (pred (wg s)) (Crashed NilCall)
                  (closeReturned s) (handled s))
      | Some action =>
          match action tx with
          | Some e =>
              Some (mkSys (engine s) (quit s) (pred (wg s))
                      (Crashed (HookFailed e)) (closeReturned s) seen)
          | None =>
              Some (mkSys (engine s) (quit s) (wg s) Selecting
                      (closeReturned s) seen)
          end
      end
  | _, _ => None
  end.

(** What can happen to a running engine: a caller injects, the owner
    closes, the dispatcher moves. *)
Inductive Action : Type :=
| DoInject (tx : Transaction)
| DoClose
| DoService (m : Move).

Definition act (a : Action) (s : Sys) : option Sys :=
  match a with
  | DoInject tx =>
      match InjectTx tx (engine s) with
      | (Panic _, _) => None
      | (_, bc') =>
          Some (mkSys bc' (quit s) (wg s) (disp s) (closeReturned s)
                  (handled s))
      end
  | DoClose =>
      match Close s with
      | (Done _, s') => Some s'
      | _ => None
      end
  | DoService m => service m s
  end.

Fixpoint run (schedule : list Action) (s : Sys) : option Sys :=
  match schedule with
  | [] => Some s
  | a :: rest =>
      match act a s with
      | Some s' => run rest s'
      | None => None
      end
  end.

End Lifecycle.

(** ** The older engine ([src/kchain/blockchain.go]) *)

(** Package [kchain] injects without a hook: it verifies against the head
    of the chain, writes the state, and appends last.  Its transaction
    type, stores and verification are in files that are not at hand and
    that the specification does not describe; they are taken as an
    interface. *)
Module Kchain.

Class Collaborators : Type := {
  Tx : Type;
  Chain : Type;
  State : Type;
  TxKittyID : Tx -> N;
  TxFrom : Tx -> Address;
  TxTo : Tx -> Address;
  TxVerify : Tx -> option Tx -> option Error;
  TxIsKittyGen : Tx -> PubKey -> bool;
  ChainHead : Chain -> Error + Tx;
  ChainAddTx : Tx -> Chain -> Error + Chain;
  StateAddKitty : N -> Address -> State -> Error + State;
  StateMoveKitty : N -> Address -> Address -> State -> Error + State
}.

Inductive Call `{Collaborators} : Type :=
| Verified (tx : Tx) (prev : option Tx)
| Applied (tx : Tx)
| Appended (tx : Tx).

(** [panic(e)] on a failed append is [Died e]. *)
Inductive Result : Type :=
| Accepted
| Rejected (e : Error)
| Died (e : Error).

Record Engine `{Collaborators} : Type := mkEngine {
  creator : PubKey;
  log : Chain;
  view : State;
  history : list Call
}.

Arguments mkEngine {_} _ _ _ _.

Definition headOrNil `{Collaborators} (db : Chain) : option Tx :=
  match ChainHead db with
  | inr temp => Some temp
  | inl _ => None
  end.

Definition InjectTx `{Collaborators} (tx : Tx) (bc : Engine) : Result * Engine :=
  let prev := headOrNil (log bc) in
  let h1 := history bc ++ [Verified tx prev] in
  match TxVerify tx prev with
  | Some e => (Rejected e, mkEngine (creator bc) (log bc) (view bc) h1)
  | None =>
      let written :=
        if TxIsKittyGen tx (creator bc)
        then StateAddKitty (TxKittyID tx) (TxTo tx) (view bc)
        else StateMoveKitty (TxKittyID tx) (TxFrom tx) (TxTo tx) (view bc) in
      match written with
      | inl e => (Rejected e, mkEngine (creator bc) (log bc) (view bc) h1)
      | inr s' =>
          let h2 := h1 ++ [Applied tx] in
          match ChainAddTx tx (log bc) with
          | inl e => (Died e, mkEngine (creator bc) (log bc) s' h2)
          | inr db' =>
              (Accepted, mkEngine (creator bc) db' s' (h2 ++ [Appended tx]))
          end
      end
  end.

End Kchain.

(** ** Vocabulary of the statements *)

Section Statements.
Context `{Cipher}.

(** The predecessor the checker verifies against, and the update of the
    projection it then makes, as functions of the stores. *)
Definition unspentOf (bc : BlockChain) (tx : Transaction)
    : Error + option Transaction :=
  match GetKittyUnspentTx (state bc) (KittyID tx) with
  | Some tempHash =>
      match GetTxOfHash (chain bc) tempHash with
      | inl e => inl e
      | inr temp => inr (Some temp)
      end
  | None => inr None
  end.

Definition applyTx (tx : Transaction) (unspent : option Transaction)
    (creator : PubKey) (s : StateDB) : Outcome StateDB :=
  if IsKittyGen tx creator then
    match AddKitty (Hash tx) (KittyID tx) (Out tx) s with
    | inl e => Fail e
    | inr s' => Done s'
    end
  else
    match unspent with
    | None => Panic NilDereference
    | Some u =>
        match MoveKitty (Hash tx) (KittyID tx) (Out u) (Out tx) s with
        | inl e => Fail e
        | inr s' => Done s'
        end
    end.

Definition verified (tx : Transaction) (unspent : option Transaction)
    (bc : BlockChain) : BlockChain :=
  mkBlockChain (c bc) (chain bc) (state bc)
    (calls bc ++ [EvVerify tx unspent (CreatorPK (c bc))]).

(** The panic an outcome carries, if any. *)
Definition panicOf {A : Type} (r : Outcome A) : option Fault :=
  match r with
  | Panic p => Some p
  | _ => None
  end.

(** What an operation added to the history. *)
Definition newCalls (before after : BlockChain) : list Event :=
  drop (length (calls before)) (calls after).


(** In a history, every update of the projection comes after the append
    of the same transaction. *)
Definition appliedAfterAppend (evs : list Event) : Prop :=
  ∀ i tx, evs !! i = Some (EvApply tx) →
    ∃ j, (j < i)%nat ∧ evs !! j = Some (EvAppend tx).

(** The checker run over a list of transactions, in order, until one does
    not pass. *)
Fixpoint replay (l : list Transaction) : M unit :=
  match l with
  | [] => mret ()
  | tx :: l' => MakeTxChecker tx;; replay l'
  end.

(** The transactions of sequences [1] to [Len - 1]. *)
Definition replayed (db : ChainDB) : list Transaction :=
  take (N.to_nat (Len db - 1)) (drop 1 (txs db)).



(** A page whose range starts at sequence [start]: the page count is the
    ceiling of the quotient, and the transactions are those of sequences
    [start], [start + 1], ..., fewer than [perPage] only where the log
    ends. *)
Definition ceilDiv (len pageSize : N) : N := (len + pageSize - 1) / pageSize.

Definition pageFrom (start : N) (currentPage perPage : N) (bc : BlockChain)
    : Prop :=
  ∃ page,
    (GetTransactionPage currentPage perPage bc).1 = Done page ∧
    TotalPageCount page = ceilDiv (Len (chain bc)) perPage ∧
    N.of_nat (length (Transactions page)) ≤ perPage ∧
    ∀ i : nat,
      Transactions page !! i
        = if decide (N.of_nat i < perPage)
          then txs (chain bc) !! (N.to_nat start + i)%nat
          else None.

(** The page as the specification words it: the range starts at sequence
    [perPage * currentPage]. *)
Definition pageAsStated (currentPage perPage : N) (bc : BlockChain) : Prop :=
  pageFrom (perPage * currentPage) currentPage perPage bc.




End Statements.

(** ** A concrete scenario *)

Module Scenario.

Definition toyHash (tx : Transaction) : TxHash :=
  1 + KittyID tx + 10 * In tx + 1000 * Out tx + 100000 * Sig tx.

(** A stand-in cipher: a signature is the number of its signer, an address
    is the number of its key, and key [0] is invalid. *)
#[export] Instance toy : Cipher := {|
  Hash := toyHash;
  SigByPubKey := λ pk tx, Sig tx =? pk;
  SigByAddress := λ a tx, Sig tx =? a;
  PubKeyVerify := λ pk, if pk =? 0 then Some InvalidPubKey else None
|}.

Definition issuer : PubKey := 7.

Definition config : BlockChainConfig := mkConfig issuer None.

Definition fresh : BlockChain := mkBlockChain config emptyChain emptyState [].

(** The issuer creates kitty 1 for address 50, who moves it to 60 and
    then tries to move it again, to 70, from the same unspent hash. *)
Definition create : Transaction := mkTx 1 0 50 7.

Definition move : Transaction := mkTx 1 (toyHash create) 60 50.

Definition moveAgain : Transaction := mkTx 1 (toyHash create) 70 50.

Definition afterCreate : BlockChain := (InjectTx create fresh).2.

Definition afterMove : BlockChain := (InjectTx move afterCreate).2.

(** A log that starts with a marker at sequence 0. *)
Definition marker : Transaction := mkTx 0 0 0 0.


(** A transfer with no creation before it. *)
Definition orphan : Transaction := mkTx 2 5 60 50.

Definition brokenLog : ChainDB := mkChainDB [marker; orphan] [].

(** An engine with one stored transaction. *)
Definition single : BlockChain :=
  mkBlockChain config (mkChainDB [create] []) emptyState [].

Definition big : N := 4294967296.

(** The engine built over the marked log; a creation is injected, the
    owner closes, and the dispatcher then takes its turn. *)
Definition started : option (Outcome Sys) :=
  NewBlockChain config (mkChainDB [marker] []) emptyState.

Definition closeThenDispatch : list Action :=
  [DoInject create; DoClose; DoService SelectTx; DoService RunHook].

End Scenario.

(** ** Readers, callers and the rest of the older engine *)

Section Readers.
Context `{Cipher}.

(** The read accessors, lines 105 to 138 of [iko/blockchain.go]: each takes
    the read lock and hands the question to a store.  The methods that
    share a name with the store's are prefixed here. *)
Definition GetHeadTx (bc : BlockChain) : Error + Transaction :=
  Head (chain bc).

Definition BlockChain_GetTxOfHash (bc : BlockChain) (txHash : TxHash)
    : Error + Transaction :=
  GetTxOfHash (chain bc) txHash.

Definition BlockChain_GetTxOfSeq (bc : BlockChain) (seq : N)
    : Error + Transaction :=
  GetTxOfSeq (chain bc) seq.

Definition BlockChain_GetKittyState (bc : BlockChain) (kittyID : N)
    : option KittyState :=
  GetKittyState (state bc) kittyID.

Definition BlockChain_GetAddressState (bc : BlockChain) (address : Address)
    : list N :=
  GetAddressState (state bc) address.

(** A caller injects one transaction after the other, whatever each call
    returns. *)
Fixpoint injectEach (l : list Transaction) (bc : BlockChain) : BlockChain :=
  match l with
  | [] => bc
  | tx :: l' => injectEach l' (InjectTx tx bc).2
  end.

(** A caller pages through the log: the transactions of one page, the
    page count the first page reports, and the pages [0] to [n - 1] laid
    end to end. *)
Definition pageTransactions (currentPage perPage : N) (bc : BlockChain)
    : list Transaction :=
  match (GetTransactionPage currentPage perPage bc).1 with
  | Done page => Transactions page
  | _ => []
  end.

Definition pageCount (perPage : N) (bc : BlockChain) : N :=
  match (GetTransactionPage 0 perPage bc).1 with
  | Done page => TotalPageCount page
  | _ => 0
  end.

Definition pagesUpTo (n : nat) (perPage : N) (bc : BlockChain)
    : list Transaction :=
  flat_map (λ k, pageTransactions (N.of_nat k) perPage bc) (seq 0 n).

(** Every unspent hash the projection records is the hash of a transaction
    of the list. *)
Definition pointersLogged (l : list Transaction) (s : StateDB) : Prop :=
  ∀ kittyID ks, kitties s !! kittyID = Some ks →
    ∃ tx, tx ∈ l ∧ Hash tx = Unspent ks.

(** The notification the dispatcher holds between its receive and the
    return of the hook; whether the goroutine is still running; every
    notification the dispatcher has or will come to, in order. *)
Definition inflight (d : Dispatcher) : list Transaction :=
  match d with
  | Handling tx => [tx]
  | _ => []
  end.

Definition alive (d : Dispatcher) : bool :=
  match d with
  | Selecting | Handling _ => true
  | Returned | Crashed _ => false
  end.

Definition notified (s : Sys) : list Transaction :=
  (handled s).*1 ++ inflight (disp s) ++ txChan (chain (engine s)).

(** [wg] counts the dispatcher while it runs, and [service] has returned
    only with [quit] closed. *)
Definition accounted (s : Sys) : Prop :=
  wg s = (if alive (disp s) then 1%nat else 0%nat) ∧
  (disp s = Returned → quit s = true ∧ closeReturned s = true) ∧
  (quit s = closeReturned s).

End Readers.

(** The rest of [kchain/blockchain.go]: the replay and the construction.
    The chain's length is a [uint64]. *)
Module KchainLife.
Import Kchain.

Class Log `{Collaborators} : Type := {
  ChainLen : Chain -> N;
  ChainLen_uint64 : ∀ db, ChainLen db < uint64_mod;
  ChainGetTxOfSeq : Chain -> N -> Error + Tx
}.

(** The loop of [InitState], lines 62 to 92: [prev] is declared and never
    assigned, so every [tx.Verify(prev)] is given nil. *)
Fixpoint InitState_loop `{Log} (fuel : nat) (i : N) (bc : Engine)
    : option (Result * Engine) :=
  match fuel with
  | O => None
  | S fuel' =>
      if i <? ChainLen (log bc) then
        match ChainGetTxOfSeq (log bc) i with
        | inl e => Some (Rejected e, bc)
        | inr tx =>
            let h1 := history bc ++ [Verified tx None] in
            match TxVerify tx None with
            | Some e => Some (Rejected e, mkEngine (creator bc) (log bc) (view bc) h1)
            | None =>
                let written :=
                  if TxIsKittyGen tx (creator bc)
                  then StateAddKitty (TxKittyID tx) (TxTo tx) (view bc)
                  else StateMoveKitty (TxKittyID tx) (TxFrom tx) (TxTo tx)
                         (view bc) in
                match written with
                | inl e =>
                    Some (Rejected e, mkEngine (creator bc) (log bc) (view bc) h1)
                | inr s' =>
                    InitState_loop fuel' (add64 i 1)
                      (mkEngine (creator bc) (log bc) s' (h1 ++ [Applied tx]))
                end
            end
        end
      else Some (Accepted, bc)
  end.

Definition InitState `{Log} (bc : Engine) : option (Result * Engine) :=
  InitState_loop (S (N.to_nat (ChainLen (log bc)))) 1 bc.

Record Config `{Collaborators} : Type := mkKConfig {
  KCreatorPK : PubKey;
  KTxAction : option (Tx -> option Error)
}.

Arguments mkKConfig {_} _ _.

(** The engine with its configuration, as [NewBlockChain] returns it. *)
Record Running `{Collaborators} : Type := mkRunning {
  kconfig : Config;
  kengine : Engine
}.

Arguments mkRunning {_} _ _.

(** [NewBlockChain], lines 38 to 60: no call of [Prepare]; the
    configuration goes into the engine as it came. *)
Definition NewBlockChain `{Log} (config : Config) (chainDB : Chain)
    (stateDB : State) : option (Error + Running) :=
  match InitState (mkEngine (KCreatorPK config) chainDB stateDB []) with
  | None => None
  | Some (Accepted, bc') => Some (inr (mkRunning config bc'))
  | Some (Rejected e, _) => Some (inl e)
  | Some (Died e, _) => Some (inl e)
  end.

(** The body of the receive case of [service], lines 106 to 109: the hook
    is called on the notification; [None] when the loop goes on. *)
Definition deliver `{Collaborators} (r : Running) (tx : Tx) : option Fault :=
  match KTxAction (kconfig r) with
  | None => Some NilCall
  | Some action =>
      match action tx with
      | Some e => Some (HookFailed e)
      | None => None
      end
  end.

End KchainLife.

(** Further concrete cases. *)
Module Cases.
Import Scenario.

(** The engine over the marked log, running, and what a caller and the
    dispatcher then do. *)
Definition running : Sys :=
  mkSys (mkBlockChain (mkConfig issuer (Some noAction))
           (mkChainDB [marker] []) emptyState [])
    false 1 Selecting false [].

Definition busy : list Action :=
  [DoInject create; DoInject moveAgain; DoService SelectTx; DoInject move;
   DoService RunHook; DoService SelectTx].


Definition woundUp : list Action :=
  [DoInject create; DoClose; DoService SelectQuit].

(** A stand-in for the collaborators of [kchain]: a transaction is a
    number, the chain a list of them, the state the kitties made so far;
    verification passes unless the transaction is [0]. *)
#[export] Instance toyKchain : Kchain.Collaborators := {|
  Kchain.Tx := N;
  Kchain.Chain := list N;
  Kchain.State := list N;
  Kchain.TxKittyID := λ tx, tx;
  Kchain.TxFrom := λ _, 0;
  Kchain.TxTo := λ _, 1;
  Kchain.TxVerify := λ tx _, if tx =? 0 then Some InvalidSignature else None;
  Kchain.TxIsKittyGen := λ _ _, true;
  Kchain.ChainHead := λ db,
    match last db with Some tx => inr tx | None => inl NotFound end;
  Kchain.ChainAddTx := λ tx db,
    if tx =? 9 then inl NotFound else inr (db ++ [tx]);
  Kchain.StateAddKitty := λ k _ st, inr (st ++ [k]);
  Kchain.StateMoveKitty := λ _ _ _ st, inr st
|}.

#[export] Program Instance toyLog : KchainLife.Log := {|
  KchainLife.ChainLen := λ db, wrap64 (N.of_nat (length (db : list N)));
  KchainLife.ChainGetTxOfSeq := λ db seq,
    match (db : list N) !! N.to_nat seq with
    | Some tx => inr tx
    | None => inl NotFound
    end
|}.
Next Obligation. intros db. unfold wrap64, uint64_mod. by apply N.mod_lt. Qed.

Definition kfresh : Kchain.Engine := Kchain.mkEngine 7 [] [] [].

Definition klogged : Kchain.Engine :=
  @Kchain.mkEngine toyKchain 7 [5; 6; 7] [] [].

Definition knoHook : KchainLife.Config := @KchainLife.mkKConfig toyKchain 0 None.

Definition klog : @Kchain.Chain toyKchain := [5; 6].

Definition kstate : @Kchain.State toyKchain := [].

End Cases.

(** * Properties *)

Lemma BlockChain_eta (bc : BlockChain) :
  mkBlockChain (c bc) (chain bc) (state bc) (calls bc) = bc.
Proof. by destruct bc. Qed.

Ltac unfold_engine :=
  unfold InjectTx, AddTx, MakeTxChecker, lookupUnspent, GetTransactionPage,
    mbind, M_bind, mret, M_ret, gets, liftE, liftO, returnIf, panic, emit,
    setState, setChain in *;
  simpl in *.

Section CheckerFacts.
Context `{Cipher}.

(** Rule 2 of the verification leaves only creations through. *)
Lemma Verify_nil_IsKittyGen (tx : Transaction) (creator : PubKey) :
  Verify tx None creator = None → IsKittyGen tx creator = true.
Proof.
  unfold Verify, IsKittyGen. intros Hv.
  destruct (decide (In tx = EmptyTxHash)) as [Heq|]; [|done].
  destruct (SigByPubKey creator tx); [|done].
  by rewrite bool_decide_eq_true_2.
Qed.

Lemma Verify_stale (tx prev : Transaction) (creator : PubKey) :
  In tx ≠ Hash prev → Verify tx (Some prev) creator = Some StaleReference.
Proof. unfold Verify. intros Hne. by destruct (decide _). Qed.

Lemma MakeTxChecker_unfold (tx : Transaction) (bc : BlockChain) :
  MakeTxChecker tx bc =
  match unspentOf bc tx with
  | inl e => (Fail e, bc)
  | inr unspent =>
      match Verify tx unspent (CreatorPK (c bc)) with
      | Some e => (Fail e, verified tx unspent bc)
      | None =>
          match applyTx tx unspent (CreatorPK (c bc)) (state bc) with
          | Done s' =>
              (Done (),
               mkBlockChain (c bc) (chain bc) s'
                 (calls bc ++ [EvVerify tx unspent (CreatorPK (c bc));
                               EvApply tx]))
          | Fail e => (Fail e, verified tx unspent bc)
          | Panic p => (Panic p, verified tx unspent bc)
          end
      end
  end.
Proof.
  unfold unspentOf, applyTx, verified. unfold_engine.
  repeat case_match; simplify_eq/=; rewrite <- ?app_assoc; simpl;
    try done; congruence.
Qed.

Lemma InjectTx_unfold (tx : Transaction) (bc : BlockChain) :
  InjectTx tx bc =
  match MakeTxChecker tx bc with
  | (Done _, bc') =>
      (Done (),
       mkBlockChain (c bc') (appendTx tx (chain bc')) (state bc')
         (calls bc' ++ [EvAppend tx]))
  | r => r
  end.
Proof.
  unfold InjectTx, AddTx. generalize (MakeTxChecker tx). intros m.
  unfold_engine. destruct (m bc) as [[[]| |] bc']; done.
Qed.

(** Either update of the projection records the candidate's output and
    hash for its kitty. *)
Lemma applyTx_done (tx : Transaction) (unspent : option Transaction)
    (creator : PubKey) (s s' : StateDB) :
  applyTx tx unspent creator s = Done s' →
  GetKittyState s' (KittyID tx) = Some (mkKittyState (Out tx) (Hash tx)).
Proof.
  unfold applyTx, AddKitty, MoveKitty, GetKittyState.
  intros Ha. repeat case_match; simplify_eq/=; by rewrite lookup_insert_eq.
Qed.

Lemma applyTx_no_panic (tx : Transaction) (unspent : option Transaction)
    (creator : PubKey) (s : StateDB) :
  Verify tx unspent creator = None →
  panicOf (applyTx tx unspent creator s) = None.
Proof.
  intros Hv. unfold applyTx.
  destruct unspent as [u|].
  - repeat case_match; done.
  - rewrite Verify_nil_IsKittyGen; [|done]. by case_match.
Qed.

(** The checker writes the projection and the history only. *)
Lemma MakeTxChecker_frame (tx : Transaction) (bc : BlockChain) :
  chain (MakeTxChecker tx bc).2 = chain bc ∧ c (MakeTxChecker tx bc).2 = c bc.
Proof.
  rewrite MakeTxChecker_unfold. unfold verified.
  repeat case_match; simplify_eq/=; done.
Qed.

(** A checker that does not return [nil] leaves the projection alone. *)
Lemma MakeTxChecker_not_done (tx : Transaction) (bc : BlockChain) :
  (MakeTxChecker tx bc).1 ≠ Done () → state (MakeTxChecker tx bc).2 = state bc.
Proof.
  rewrite MakeTxChecker_unfold. unfold verified.
  repeat case_match; simplify_eq/=; done.
Qed.

Lemma MakeTxChecker_no_panic (tx : Transaction) (bc : BlockChain) :
  panicOf (MakeTxChecker tx bc).1 = None.
Proof.
  rewrite MakeTxChecker_unfold.
  destruct (unspentOf bc tx) as [e|unspent]; [done|].
  destruct (Verify tx unspent (CreatorPK (c bc))) as [e|] eqn:Hv; [done|].
  pose proof (applyTx_no_panic tx unspent _ (state bc) Hv) as Hp.
  by destruct (applyTx tx unspent (CreatorPK (c bc)) (state bc)).
Qed.

Lemma InjectTx_no_panic (tx : Transaction) (bc : BlockChain) :
  panicOf (InjectTx tx bc).1 = None.
Proof.
  rewrite InjectTx_unfold.
  pose proof (MakeTxChecker_no_panic tx bc) as Hp.
  by destruct (MakeTxChecker tx bc) as [[[]| |] bc'].
Qed.

(** An injection that is not accepted leaves log and projection alone;
    the configuration never changes. *)
Lemma InjectTx_not_done (tx : Transaction) (bc : BlockChain) :
  (InjectTx tx bc).1 ≠ Done () →
  chain (InjectTx tx bc).2 = chain bc ∧ state (InjectTx tx bc).2 = state bc.
Proof.
  rewrite InjectTx_unfold.
  pose proof (MakeTxChecker_frame tx bc) as [Hc _].
  pose proof (MakeTxChecker_not_done tx bc) as Hs.
  destruct (MakeTxChecker tx bc) as [[[]| |] bc']; simpl in *; try done.
  all: intros _; split; [done|by apply Hs].
Qed.

Lemma InjectTx_config (tx : Transaction) (bc : BlockChain) :
  c (InjectTx tx bc).2 = c bc.
Proof.
  rewrite InjectTx_unfold.
  pose proof (MakeTxChecker_frame tx bc) as [_ Hc].
  by destruct (MakeTxChecker tx bc) as [[[]| |] bc'].
Qed.

(** The history is never read: another history changes neither the
    outcome nor the stores an injection leaves. *)
Lemma InjectTx_history_unread (tx : Transaction) (bc : BlockChain)
    (evs : list Event) :
  let bc2 := mkBlockChain (c bc) (chain bc) (state bc) evs in
  (InjectTx tx bc2).1 = (InjectTx tx bc).1 ∧
  chain (InjectTx tx bc2).2 = chain (InjectTx tx bc).2 ∧
  state (InjectTx tx bc2).2 = state (InjectTx tx bc).2.
Proof.
  simpl. rewrite !InjectTx_unfold, !MakeTxChecker_unfold.
  unfold unspentOf, verified. simpl.
  repeat case_match; simplify_eq/=; done.
Qed.

(** What an accepted injection did. *)
Lemma InjectTx_done (tx : Transaction) (bc bc' : BlockChain) :
  InjectTx tx bc = (Done (), bc') →
  ∃ unspent s',
    unspentOf bc tx = inr unspent ∧
    Verify tx unspent (CreatorPK (c bc)) = None ∧
    applyTx tx unspent (CreatorPK (c bc)) (state bc) = Done s' ∧
    bc' = mkBlockChain (c bc) (appendTx tx (chain bc)) s'
            (calls bc ++ [EvVerify tx unspent (CreatorPK (c bc));
                          EvApply tx; EvAppend tx]).
Proof.
  rewrite InjectTx_unfold, MakeTxChecker_unfold. unfold verified.
  intros Hi. repeat case_match; simplify_eq/=.
  eexists _, _. repeat split; try done.
  by rewrite <- app_assoc.
Qed.

End CheckerFacts.

Section InjectionClaims.
Context `{Cipher}.

Lemma newCalls_app (bc bc' : BlockChain) (evs : list Event) :
  calls bc' = calls bc ++ evs → newCalls bc bc' = evs.
Proof. unfold newCalls. intros ->. apply drop_app_length. Qed.



(** C7, amended. The projection is written inside the validation hook,
    after the verification and before the append: an accepted injection
    verifies, then applies, then appends, in that order; a transaction
    enters the log only when verification passed; an injection that is
    not accepted, and so one whose verification fails, returns its error
    with log and projection unchanged. *)
Theorem inject_applies_in_hook_before_append (tx : Transaction)
    (bc : BlockChain) :
  (∀ bc', InjectTx tx bc = (Done (), bc') →
     ∃ unspent,
       unspentOf bc tx = inr unspent ∧
       Verify tx unspent (CreatorPK (c bc)) = None ∧
       newCalls bc bc' = [EvVerify tx unspent (CreatorPK (c bc));
                          EvApply tx; EvAppend tx] ∧
       txs (chain bc') = txs (chain bc) ++ [tx] ∧
       GetKittyState (state bc') (KittyID tx)
         = Some (mkKittyState (Out tx) (Hash tx))) ∧
  ((InjectTx tx bc).1 ≠ Done () →
     chain (InjectTx tx bc).2 = chain bc ∧
     state (InjectTx tx bc).2 = state bc) ∧
  (∀ unspent e,
     unspentOf bc tx = inr unspent →
     Verify tx unspent (CreatorPK (c bc)) = Some e →
     (InjectTx tx bc).1 = Fail e).
Proof.
  split; [|split].
  - intros bc' Hi.
    destruct (InjectTx_done tx bc bc' Hi) as (unspent & s' & Hu & Hv & Ha & ->).
    exists unspent. repeat split; try done.
    + by apply newCalls_app.
    + simpl. by eapply applyTx_done.
  - apply InjectTx_not_done.
  - intros unspent e Hu Hv.
    by rewrite InjectTx_unfold, MakeTxChecker_unfold, Hu, Hv.
Qed.

(** C9. In the checker a candidate that is not a generation transaction
    reaches the transfer branch with a predecessor in hand: verification
    against no predecessor lets only generation transactions pass, so the
    read of [unspent.Out] is never a nil dereference, and the checker
    never panics. *)
Theorem transfer_branch_has_predecessor (tx : Transaction) (bc : BlockChain) :
  (∀ unspent,
     unspentOf bc tx = inr unspent →
     Verify tx unspent (CreatorPK (c bc)) = None →
     IsKittyGen tx (CreatorPK (c bc)) = false →
     ∃ u, unspent = Some u) ∧
  panicOf (MakeTxChecker tx bc).1 = None.
Proof.
  split; [|apply MakeTxChecker_no_panic].
  intros [u|] _ Hv Hg; [by exists u|].
  apply Verify_nil_IsKittyGen in Hv. congruence.
Qed.

(** An accepted injection leaves the candidate in the log, where the
    lookup by its hash finds a transaction of that hash. *)
Lemma GetTxOfHash_elem_of (db : ChainDB) (tx : Transaction) :
  tx ∈ txs db → ∃ temp, GetTxOfHash db (Hash tx) = inr temp ∧ Hash temp = Hash tx.
Proof.
  intros Hin. unfold GetTxOfHash.
  destruct (list_find_elem_of (λ t, Hash t = Hash tx) (txs db) tx Hin eq_refl)
    as [[i temp] Hf].
  rewrite Hf. exists temp. split; [done|].
  by apply list_find_Some in Hf as (_ & ? & _).
Qed.

(** C1. A kitty's unspent pointer is [h]; a transfer of the kitty is
    accepted and moves the pointer to its own hash, another one.  That
    transfer spent [h], and a second transaction of the same kitty whose
    input is still [h] is rejected with [StaleReference]; log and
    projection, and with it owner and pointer of the kitty, stay as the
    first transfer left them. *)
Theorem stale_transfer_rejected (bc bc1 : BlockChain) (t1 t2 : Transaction)
    (h : TxHash) :
  GetKittyUnspentTx (state bc) (KittyID t1) = Some h →
  InjectTx t1 bc = (Done (), bc1) →
  Hash t1 ≠ h →
  KittyID t2 = KittyID t1 →
  In t2 = h →
  In t1 = h ∧
  GetKittyState (state bc1) (KittyID t1)
    = Some (mkKittyState (Out t1) (Hash t1)) ∧
  (InjectTx t2 bc1).1 = Fail StaleReference ∧
  chain (InjectTx t2 bc1).2 = chain bc1 ∧
  state (InjectTx t2 bc1).2 = state bc1.
Proof.
  intros Hp Hi Hne Hk Hin.
  destruct (InjectTx_done t1 bc bc1 Hi) as (unspent & s' & Hu & Hv & Ha & ->).
  pose proof (applyTx_done _ _ _ _ _ Ha) as Hs'.
  assert (Hin1 : In t1 = h).
  { unfold unspentOf in Hu. rewrite Hp in Hu.
    unfold GetTxOfHash in Hu.
    destruct (list_find _ _) as [[i temp]|] eqn:Hf; [|done].
    simplify_eq. apply list_find_Some in Hf as (_ & Hh & _).
    unfold Verify in Hv. destruct (decide (In t1 = Hash temp)); [|done].
    congruence. }
  assert (Hfail : (InjectTx t2 (mkBlockChain (c bc) (appendTx t1 (chain bc)) s'
            (calls bc ++ [EvVerify t1 unspent (CreatorPK (c bc));
                          EvApply t1; EvAppend t1]))).1
          = Fail StaleReference).
  { rewrite InjectTx_unfold, MakeTxChecker_unfold. unfold unspentOf. simpl.
    unfold GetKittyUnspentTx. rewrite Hk.
    unfold GetKittyState in Hs'. rewrite Hs'. simpl.
    destruct (GetTxOfHash_elem_of (appendTx t1 (chain bc)) t1)
      as (temp & Hg & Hh).
    { simpl. apply elem_of_app. right. apply list_elem_of_singleton.
      done. }
    rewrite Hg, Verify_stale; [done|]. congruence. }
  repeat split; try done.
  - apply InjectTx_not_done. by rewrite Hfail.
  - apply InjectTx_not_done. by rewrite Hfail.
Qed.

End InjectionClaims.


Section ReplayFacts.
Context `{Cipher}.

Lemma Len_le_length (db : ChainDB) : (N.to_nat (Len db) ≤ length (txs db))%nat.
Proof.
  unfold Len, wrap64, uint64_mod.
  pose proof (N.Div0.mod_le (N.of_nat (length (txs db))) (2 ^ 64)). lia.
Qed.

Lemma Len_lt_uint64 (db : ChainDB) : Len db < uint64_mod.
Proof. unfold Len, wrap64, uint64_mod. by apply N.mod_lt. Qed.

Lemma Len_small (db : ChainDB) :
  N.of_nat (length (txs db)) < uint64_mod → Len db = N.of_nat (length (txs db)).
Proof. unfold Len, wrap64. apply N.mod_small. Qed.

Lemma replay_cons (tx : Transaction) (l : list Transaction) (bc : BlockChain) :
  replay (tx :: l) bc =
  match MakeTxChecker tx bc with
  | (Done _, bc') => replay l bc'
  | r => r
  end.
Proof.
  simpl. unfold mbind at 1. unfold M_bind.
  by destruct (MakeTxChecker tx bc) as [[[]| |] bc'].
Qed.

Lemma replay_app (l1 l2 : list Transaction) (bc : BlockChain) :
  replay (l1 ++ l2) bc =
  match replay l1 bc with
  | (Done _, bc') => replay l2 bc'
  | r => r
  end.
Proof.
  revert bc. induction l1 as [|tx l1 IH]; intros bc; [done|].
  rewrite <- app_comm_cons, !replay_cons.
  destruct (MakeTxChecker tx bc) as [[[]| |] bc']; [apply IH|done|done].
Qed.

Lemma replay_frame (l : list Transaction) (bc : BlockChain) :
  chain (replay l bc).2 = chain bc ∧ c (replay l bc).2 = c bc.
Proof.
  revert bc. induction l as [|tx l IH]; intros bc; [done|].
  rewrite replay_cons.
  pose proof (MakeTxChecker_frame tx bc) as [Hc Hk].
  destruct (MakeTxChecker tx bc) as [[[]| |] bc']; simpl in *; try done.
  destruct (IH bc') as [-> ->]. done.
Qed.

(** The loop of [InitState], entered at sequence [i] with enough fuel, is
    the replay of the sequences [i] to [Len - 1]. *)
Lemma InitState_loop_replay (fuel : nat) (i : N) (bc : BlockChain) :
  (N.to_nat (Len (chain bc) - i) < fuel)%nat →
  InitState_loop fuel i bc
  = Some (replay (take (N.to_nat (Len (chain bc) - i))
                    (drop (N.to_nat i) (txs (chain bc)))) bc).
Proof.
  revert i bc. induction fuel as [|fuel IH]; intros i bc Hfuel; [lia|].
  simpl. destruct (N.ltb_spec i (Len (chain bc))) as [Hlt|Hge].
  - pose proof (Len_le_length (chain bc)) as Hlen.
    pose proof (Len_lt_uint64 (chain bc)) as Hmax.
    destruct (txs (chain bc) !! N.to_nat i) as [tx|] eqn:Htx.
    2: { apply lookup_ge_None in Htx. lia. }
    unfold GetTxOfSeq. rewrite Htx.
    assert (Hnext : add64 i 1 = i + 1).
    { unfold add64, wrap64. apply N.mod_small. lia. }
    replace (N.to_nat (Len (chain bc) - i))
      with (S (N.to_nat (Len (chain bc) - (i + 1)))) by lia.
    rewrite (drop_S _ _ _ Htx). rewrite firstn_cons, replay_cons.
    pose proof (MakeTxChecker_frame tx bc) as [Hc _].
    destruct (MakeTxChecker tx bc) as [[[]| |] bc'] eqn:Hchk; try done.
    simpl in Hc. rewrite Hnext, IH; rewrite Hc; [|lia].
    by replace (N.to_nat (i + 1)) with (S (N.to_nat i)) by lia.
  - by replace (N.to_nat (Len (chain bc) - i)) with 0%nat by lia.
Qed.

Lemma InitState_replay (bc : BlockChain) :
  InitState bc = Some (replay (replayed (chain bc)) bc).
Proof.
  unfold InitState, replayed. rewrite InitState_loop_replay; [done|].
  pose proof (Len_le_length (chain bc)). lia.
Qed.



End ReplayFacts.

Section ReplayClaims.
Context `{Cipher}.


Lemma NewBlockChain_unfold (config : BlockChainConfig) (chainDB : ChainDB)
    (stateDB : StateDB) :
  NewBlockChain config chainDB stateDB =
  match Prepare config with
  | (_, Some e) => Some (Fail e)
  | (config', None) =>
      match replay (replayed chainDB)
              (mkBlockChain config' chainDB stateDB []) with
      | (Done _, bc') => Some (Done (mkSys bc' false 1 Selecting false []))
      | (Fail e, _) => Some (Fail e)
      | (Panic p, _) => Some (Panic p)
      end
  end.
Proof.
  unfold NewBlockChain. destruct (Prepare config) as [config' [e|]]; [done|].
  rewrite InitState_replay. simpl.
  by destruct (replay _ _) as [[[]| |] bc'].
Qed.










End ReplayClaims.

Section PaginationClaims.
Context `{Cipher}.

Lemma seqRange_lookup (l : list Transaction) (start count : N) (i : nat) :
  seqRange l start count !! i
  = if decide (N.of_nat i < count)
    then l !! (N.to_nat start + i)%nat
    else None.
Proof.
  revert start count i. induction l as [|tx l IH]; intros start count i; simpl.
  - by destruct (decide _).
  - destruct (N.eqb_spec start 0) as [->|Hstart].
    + destruct (N.eqb_spec count 0) as [->|Hcount].
      * destruct (decide _); [lia|done].
      * destruct i as [|i]; simpl.
        -- destruct (decide _); [done|lia].
        -- rewrite IH. simpl.
           destruct (decide (N.of_nat i < count - 1)),
             (decide (N.of_nat (S i) < count)); try done; lia.
    + rewrite IH.
      replace (N.to_nat start) with (S (N.to_nat (start - 1))) by lia.
      done.
Qed.

Lemma seqRange_length (l : list Transaction) (start count : N) :
  N.of_nat (length (seqRange l start count)) ≤ count.
Proof.
  revert start count. induction l as [|tx l IH]; intros start count; simpl.
  - lia.
  - destruct (N.eqb_spec start 0) as [->|Hstart]; [|apply IH].
    destruct (N.eqb_spec count 0) as [->|Hcount]; simpl; [lia|].
    specialize (IH 0 (count - 1)). lia.
Qed.

Lemma seqRange_take (l : list Transaction) (count : N) :
  seqRange l 0 count = take (N.to_nat count) l.
Proof.
  apply list_eq. intros i. rewrite seqRange_lookup, lookup_take. simpl.
  destruct (decide (N.of_nat i < count)), (decide (i < N.to_nat count)%nat);
    try done; lia.
Qed.

(** Below [2^64] the page count is the ceiling of the quotient. *)
Lemma totalPageCount_ceil (len pageSize : N) :
  pageSize ≠ 0 → len < uint64_mod →
  totalPageCount len pageSize = Done (ceilDiv len pageSize).
Proof.
  intros Hp Hlen. unfold totalPageCount, ceilDiv.
  destruct (N.eqb_spec pageSize 0) as [|_]; [done|].
  pose proof (N.div_mod' len pageSize) as Hdm.
  pose proof (N.mod_lt len pageSize Hp) as Hr.
  set (q := len `div` pageSize) in *. set (r := len `mod` pageSize) in *.
  assert (Hq : q ≤ pageSize * q) by nia.
  set (m := pageSize * q) in *.
  destruct (N.eqb_spec r 0) as [Hz|Hnz]; f_equal.
  - apply N.div_unique with (r := pageSize - 1); fold m; lia.
  - unfold add64, wrap64. rewrite N.mod_small by lia.
    apply N.div_unique with (r := r - 1); fold m; lia.
Qed.

Lemma GetTransactionPage_unfold (currentPage perPage : N) (bc : BlockChain) :
  perPage ≠ 0 →
  GetTransactionPage currentPage perPage bc
  = (Done (mkPage (ceilDiv (Len (chain bc)) perPage)
             (seqRange (txs (chain bc)) (mul64 perPage currentPage) perPage)),
     bc).
Proof.
  intros Hp. unfold_engine. unfold GetTxsOfSeqRange.
  by rewrite totalPageCount_ceil; [| |apply Len_lt_uint64].
Qed.

(** [ceilDiv] is the least number of pages that hold [len] entries. *)
Lemma ceilDiv_spec (len pageSize : N) :
  pageSize ≠ 0 →
  len ≤ ceilDiv len pageSize * pageSize ∧
  ceilDiv len pageSize * pageSize < len + pageSize.
Proof.
  intros Hp. unfold ceilDiv.
  pose proof (N.div_mod' (len + pageSize - 1) pageSize) as Hdm.
  pose proof (N.mod_lt (len + pageSize - 1) pageSize Hp) as Hr.
  set (q := (len + pageSize - 1) `div` pageSize) in *.
  set (r := (len + pageSize - 1) `mod` pageSize) in *.
  rewrite (N.mul_comm q pageSize).
  set (m := pageSize * q) in *. lia.
Qed.

(** C4, amended. With [perPage] positive, the page reports the ceiling of
    chain length over [perPage] and holds the transactions from sequence
    [perPage * currentPage] taken modulo [2^64], at most [perPage] of
    them; that is sequence [perPage * currentPage] itself whenever the
    product is below [2^64]; on a chain of length 25, page 0 of size 10
    holds sequences 0 to 9 and the page count is 3. *)
Theorem page_starts_at_wrapped_product (currentPage perPage : N)
    (bc : BlockChain) :
  perPage ≠ 0 →
  pageFrom (mul64 perPage currentPage) currentPage perPage bc ∧
  (Len (chain bc) ≤ ceilDiv (Len (chain bc)) perPage * perPage ∧
   ceilDiv (Len (chain bc)) perPage * perPage < Len (chain bc) + perPage) ∧
  (perPage * currentPage < uint64_mod → pageAsStated currentPage perPage bc) ∧
  (length (txs (chain bc)) = 25%nat →
     (GetTransactionPage 0 10 bc).1
       = Done (mkPage 3 (take 10 (txs (chain bc))))).
Proof.
  intros Hp.
  assert (Hfrom : pageFrom (mul64 perPage currentPage) currentPage perPage bc).
  { eexists. rewrite GetTransactionPage_unfold by done. simpl.
    split; [done|]. split; [done|]. split; [apply seqRange_length|].
    intros i. apply seqRange_lookup. }
  split; [done|]. split; [by apply ceilDiv_spec|]. split.
  - intros Hsmall. unfold pageAsStated.
    replace (perPage * currentPage) with (mul64 perPage currentPage); [done|].
    unfold mul64, wrap64. by apply N.mod_small.
  - intros Hlen. rewrite GetTransactionPage_unfold by done. simpl.
    unfold Len, wrap64. rewrite Hlen.
    replace (mul64 10 0) with 0 by (vm_compute; reflexivity).
    rewrite seqRange_take. f_equal.
Qed.

(** A page size of zero makes [totalPageCount] divide by zero, whatever
    the length; nothing in [GetTransactionPage] stands before that call but
    the error of the chain's range query. *)
Lemma totalPageCount_zero (len : N) :
  totalPageCount len 0 = Panic DivideByZero.
Proof. reflexivity. Qed.


End PaginationClaims.

Section LifecycleClaims.
Context `{Cipher}.






(** C8, on the code. [Close] closes [quit] and returns at once: the
    dispatcher is where it was, the wait group has not been waited for. *)
Theorem Close_does_not_wait (s : Sys) :
  quit s = false →
  ∃ s', Close s = (Done (), s') ∧ closeReturned s' = true ∧
        disp s' = disp s ∧ wg s' = wg s ∧ engine s' = engine s.
Proof. intros Hq. unfold Close. rewrite Hq. by eexists. Qed.

End LifecycleClaims.

(** ** The older engine *)

Section KchainFacts.
Context `{Kchain.Collaborators}.

(** In [kchain] too the state is written before the append: an accepted
    injection verified against the head of the chain, then wrote the
    state, then appended. *)
Lemma kchain_inject_order (tx : Kchain.Tx) (bc bc' : Kchain.Engine) :
  Kchain.InjectTx tx bc = (Kchain.Accepted, bc') →
  Kchain.TxVerify tx (Kchain.headOrNil (Kchain.log bc)) = None ∧
  Kchain.history bc'
    = Kchain.history bc
      ++ [Kchain.Verified tx (Kchain.headOrNil (Kchain.log bc));
          Kchain.Applied tx; Kchain.Appended tx].
Proof.
  unfold Kchain.InjectTx. intros Hi.
  destruct (Kchain.TxVerify tx _) as [e|]; [done|].
  destruct (if Kchain.TxIsKittyGen tx (Kchain.creator bc) then _ else _)
    as [e|s']; [done|].
  destruct (Kchain.ChainAddTx tx (Kchain.log bc)) as [e|db']; [done|].
  injection Hi as <-. simpl. split; [done|].
  by rewrite <- !app_assoc.
Qed.

(** A failed verification returns its error, chain and state untouched. *)
Lemma kchain_inject_rejected (tx : Kchain.Tx) (bc : Kchain.Engine) (e : Error) :
  Kchain.TxVerify tx (Kchain.headOrNil (Kchain.log bc)) = Some e →
  (Kchain.InjectTx tx bc).1 = Kchain.Rejected e ∧
  Kchain.log (Kchain.InjectTx tx bc).2 = Kchain.log bc ∧
  Kchain.view (Kchain.InjectTx tx bc).2 = Kchain.view bc.
Proof. unfold Kchain.InjectTx. by intros ->. Qed.

End KchainFacts.

(** ** The claims on the scenario *)

Section ScenarioChecks.
Import Scenario.


Lemma inject_applies_in_hook_before_append_witness :
  InjectTx create fresh = (Done (), afterCreate) ∧
  newCalls fresh afterCreate
    = [EvVerify create None issuer; EvApply create; EvAppend create].
Proof.
  assert (Hi : InjectTx create fresh = (Done (), afterCreate))
    by (vm_compute; reflexivity).
  split; [exact Hi|].
  destruct (proj1 (inject_applies_in_hook_before_append create fresh)
              afterCreate Hi) as (unspent & Hu & _ & Hn & _).
  vm_compute in Hu. injection Hu as <-. exact Hn.
Defined.

(** C7 as stated fails: the creation of the scenario is applied to the
    projection before it is appended. *)
Lemma applied_before_append_counterexample :
  ¬ appliedAfterAppend (newCalls fresh (InjectTx create fresh).2).
Proof.
  intros Hc. destruct (Hc 1%nat create) as (j & Hj & Hl).
  - vm_compute. reflexivity.
  - assert (j = 0%nat) as -> by lia. vm_compute in Hl. discriminate.
Qed.

Lemma transfer_branch_has_predecessor_witness :
  unspentOf afterCreate move = inr (Some create) ∧
  Verify move (Some create) (CreatorPK (c afterCreate)) = None ∧
  IsKittyGen move (CreatorPK (c afterCreate)) = false ∧
  ∃ u, Some create = Some u.
Proof.
  split; [vm_compute; reflexivity|].
  split; [vm_compute; reflexivity|].
  split; [vm_compute; reflexivity|].
  apply (proj1 (transfer_branch_has_predecessor move afterCreate));
    vm_compute; reflexivity.
Defined.

Lemma stale_transfer_rejected_witness :
  GetKittyUnspentTx (state afterCreate) (KittyID move) = Some (toyHash create) ∧
  InjectTx move afterCreate = (Done (), afterMove) ∧
  (InjectTx moveAgain afterMove).1 = Fail StaleReference ∧
  GetKittyState (state (InjectTx moveAgain afterMove).2) 1
    = Some (mkKittyState 60 (toyHash move)).
Proof.
  assert (Hp : GetKittyUnspentTx (state afterCreate) (KittyID move)
               = Some (toyHash create)) by (vm_compute; reflexivity).
  assert (Hi : InjectTx move afterCreate = (Done (), afterMove))
    by (vm_compute; reflexivity).
  assert (Hne : Hash move ≠ toyHash create) by (vm_compute; discriminate).
  destruct (stale_transfer_rejected afterCreate afterMove move moveAgain
              (toyHash create) Hp Hi Hne eq_refl eq_refl)
    as (_ & Hs & Hf & _ & Hst).
  split; [exact Hp|]. split; [exact Hi|]. split; [exact Hf|].
  rewrite Hst. exact Hs.
Defined.



(** With the transfer injected as well, the replay of the log does not
    even pass: the transfer is met with no creation before it. *)
Lemma replay_of_injected_log_fails :
  ∃ bc, InitState (mkBlockChain config (chain afterMove) emptyState [])
        = Some (Fail UnauthorizedCreation, bc).
Proof. eexists. vm_compute. reflexivity. Qed.


(** C4 as stated fails: page [2^32] of size [2^32] would start at
    sequence [2^64], beyond the single stored transaction, yet the product
    wraps to 0 and the page holds the transaction of sequence 0. *)
Lemma page_product_wraps_counterexample :
  ¬ pageAsStated big big single.
Proof.
  intros (page & Hp & _ & _ & Hl).
  assert (Hpage : Transactions page !! 0%nat = Some create).
  { vm_compute in Hp. by injection Hp as <-. }
  specialize (Hl 0%nat). rewrite Hpage in Hl.
  destruct (decide (N.of_nat 0 < big)) as [_|Hn]; [|by apply Hn].
  rewrite lookup_ge_None_2 in Hl; [discriminate|].
  change (length (txs (chain single))) with 1%nat. unfold big. lia.
Qed.

Lemma page_starts_at_wrapped_product_witness :
  (10 : N) ≠ 0 ∧ pageFrom 0 0 10 single.
Proof.
  split; [discriminate|].
  exact (proj1 (page_starts_at_wrapped_product 0 10 single
                  ltac:(discriminate))).
Defined.

(** C8, on the code. The engine is built, a creation is injected, [Close]
    returns, and the dispatcher then still receives the notification and
    runs the hook on it: the notification is handled after [Close] has
    returned, and the dispatcher is back at its [select], not finished. *)
Theorem notification_handled_after_Close :
  ∃ sys s',
    started = Some (Done sys) ∧
    run closeThenDispatch sys = Some s' ∧
    closeReturned s' = true ∧
    handled s' = [(create, true)] ∧
    disp s' = Selecting ∧
    wg s' = 1%nat.
Proof.
  eexists _, _. split; [vm_compute; reflexivity|].
  split; [vm_compute; reflexivity|]. by vm_compute.
Qed.


End ScenarioChecks.

(** * Further properties of the code *)

Section PagingFacts.
Context `{Cipher}.

Lemma seqRange_take_drop (l : list Transaction) (start count : N) :
  seqRange l start count = take (N.to_nat count) (drop (N.to_nat start) l).
Proof.
  apply list_eq. intros i.
  rewrite seqRange_lookup, lookup_take, lookup_drop.
  destruct (decide (N.of_nat i < count)), (decide (i < N.to_nat count)%nat);
    try done; lia.
Qed.

Lemma pageTransactions_unfold (currentPage perPage : N) (bc : BlockChain) :
  perPage ≠ 0 →
  pageTransactions currentPage perPage bc
  = take (N.to_nat perPage)
      (drop (N.to_nat (mul64 perPage currentPage)) (txs (chain bc))).
Proof.
  intros Hp. unfold pageTransactions.
  rewrite GetTransactionPage_unfold by done. simpl. apply seqRange_take_drop.
Qed.

Lemma pageCount_unfold (perPage : N) (bc : BlockChain) :
  perPage ≠ 0 → pageCount perPage bc = ceilDiv (Len (chain bc)) perPage.
Proof.
  intros Hp. unfold pageCount. by rewrite GetTransactionPage_unfold.
Qed.

Lemma take_pages (l : list Transaction) (p n : nat) :
  flat_map (λ k, take p (drop (p * k) l)) (seq 0 n) = take (n * p) l.
Proof.
  induction n as [|n IH]; [done|].
  rewrite seq_S, flat_map_app, IH. simpl. rewrite app_nil_r.
  replace (p * n)%nat with (n * p)%nat by lia.
  rewrite take_take_drop. f_equal. lia.
Qed.

(** X1. For a positive page size and lengths below [2^64], the page count
    never panics, grows with the length, is at most the length, and is
    zero for the empty chain only. *)
Theorem totalPageCount_monotone (len1 len2 pageSize : N) :
  pageSize ≠ 0 → len1 ≤ len2 → len2 < uint64_mod →
  ∃ n1 n2,
    totalPageCount len1 pageSize = Done n1 ∧
    totalPageCount len2 pageSize = Done n2 ∧
    n1 ≤ n2 ∧ n2 ≤ len2 ∧ (n2 = 0 ↔ len2 = 0).
Proof.
  intros Hp Hle Hmax.
  exists (ceilDiv len1 pageSize), (ceilDiv len2 pageSize).
  rewrite !totalPageCount_ceil by (done || lia).
  split; [done|]. split; [done|].
  pose proof (ceilDiv_spec len1 pageSize Hp) as [Ha1 Hb1].
  pose proof (ceilDiv_spec len2 pageSize Hp) as [Ha2 Hb2].
  set (n1 := ceilDiv len1 pageSize) in *.
  set (n2 := ceilDiv len2 pageSize) in *.
  split; [nia|]. split; [nia|]. split; [nia|].
  intros ->. unfold n2, ceilDiv. simpl.
  apply N.div_small. lia.
Qed.

(** X2. With a positive page size on a log of fewer than [2^64] entries,
    the pages [0] to [TotalPageCount - 1] laid end to end are the log:
    every transaction is on exactly one page, in order. *)
Theorem pages_tile_the_log (perPage : N) (bc : BlockChain) :
  perPage ≠ 0 →
  N.of_nat (length (txs (chain bc))) < uint64_mod →
  pagesUpTo (N.to_nat (pageCount perPage bc)) perPage bc = txs (chain bc).
Proof.
  intros Hp Hsmall. rewrite pageCount_unfold by done.
  rewrite (Len_small _ Hsmall).
  pose proof (ceilDiv_spec (N.of_nat (length (txs (chain bc)))) perPage Hp)
    as [Hlo Hhi].
  set (T := ceilDiv _ _) in *. unfold pagesUpTo.
  rewrite flat_map_concat_map.
  rewrite (map_ext_in _
             (λ k, take (N.to_nat perPage)
                     (drop (N.to_nat perPage * k) (txs (chain bc))))).
  - rewrite <- flat_map_concat_map, take_pages. apply take_ge. lia.
  - intros k Hk%in_seq. rewrite pageTransactions_unfold by done.
    assert (Hfit : perPage * N.of_nat k < uint64_mod) by nia.
    unfold mul64, wrap64. rewrite N.mod_small by done.
    do 2 f_equal. lia.
Qed.

(** X3. With a positive page size, a start that does not wrap and a log of
    fewer than [2^64] entries, a page is empty exactly when its number is
    at or beyond the page count: the count is the number of pages that
    hold something. *)
Theorem page_empty_iff_beyond_count (currentPage perPage : N)
    (bc : BlockChain) :
  perPage ≠ 0 →
  perPage * currentPage < uint64_mod →
  N.of_nat (length (txs (chain bc))) < uint64_mod →
  pageTransactions currentPage perPage bc = [] ↔
  pageCount perPage bc ≤ currentPage.
Proof.
  intros Hp Hfit Hsmall.
  rewrite pageTransactions_unfold, pageCount_unfold by done.
  rewrite (Len_small _ Hsmall).
  pose proof (ceilDiv_spec (N.of_nat (length (txs (chain bc)))) perPage Hp)
    as [Hlo Hhi].
  set (T := ceilDiv _ _) in *.
  unfold mul64, wrap64. rewrite N.mod_small by done.
  split.
  - intros Hnil. apply (f_equal length) in Hnil.
    rewrite length_take, length_drop in Hnil. simpl in Hnil. nia.
  - intros Hle. rewrite drop_ge; [apply take_nil|]. nia.
Qed.

End PagingFacts.

Section EngineFacts.
Context `{Cipher}.

(** X4. [Prepare] twice is [Prepare] once; it never changes the issuer
    key nor a hook that was configured, its error is the key check's, and
    the hook is set also when that check fails. *)
Theorem Prepare_idempotent (cc : BlockChainConfig) :
  Prepare (Prepare cc).1 = Prepare cc ∧
  CreatorPK (Prepare cc).1 = CreatorPK cc ∧
  (Prepare cc).2 = PubKeyVerify (CreatorPK cc) ∧
  is_Some (TxAction (Prepare cc).1) ∧
  (is_Some (TxAction cc) → TxAction (Prepare cc).1 = TxAction cc).
Proof.
  unfold Prepare. destruct cc as [pk [a|]]; simpl;
    destruct (PubKeyVerify pk) as [e|] eqn:Hv; simpl; rewrite ?Hv;
    repeat split; try done; try by eexists.
  all: by intros [? ?].
Qed.

Lemma applyTx_kitties (tx : Transaction) (unspent : option Transaction)
    (creator : PubKey) (s s' : StateDB) :
  applyTx tx unspent creator s = Done s' →
  kitties s' = <[KittyID tx := mkKittyState (Out tx) (Hash tx)]> (kitties s) ∧
  KittyID tx ∈ GetAddressState s' (Out tx).
Proof.
  unfold applyTx, AddKitty, MoveKitty, GetAddressState, holdKitty.
  intros Ha. repeat case_match; simplify_eq/=; (split; [done|]);
    rewrite lookup_insert_eq; simpl; apply elem_of_app; right;
    by apply list_elem_of_singleton.
Qed.

(** The state the checker leaves: as it was, or with the candidate's
    record written. *)
Lemma MakeTxChecker_state (tx : Transaction) (bc : BlockChain) :
  state (MakeTxChecker tx bc).2 = state bc ∨
  ((MakeTxChecker tx bc).1 = Done () ∧
   kitties (state (MakeTxChecker tx bc).2)
   = <[KittyID tx := mkKittyState (Out tx) (Hash tx)]> (kitties (state bc)) ∧
   KittyID tx ∈ GetAddressState (state (MakeTxChecker tx bc).2) (Out tx)).
Proof.
  rewrite MakeTxChecker_unfold. unfold verified.
  destruct (unspentOf bc tx) as [e|unspent]; [by left|].
  destruct (Verify tx unspent (CreatorPK (c bc))) as [e|]; [by left|].
  destruct (applyTx tx unspent (CreatorPK (c bc)) (state bc)) as [s'| |] eqn:Ha;
    [|by left|by left].
  right. simpl. split; [done|]. by eapply applyTx_kitties.
Qed.

Lemma pointersLogged_mono (l l' : list Transaction) (s : StateDB) :
  l ⊆ l' → pointersLogged l s → pointersLogged l' s.
Proof.
  intros Hsub Hp k ks Hk. destruct (Hp k ks Hk) as (tx & Hin & Hh).
  exists tx. split; [by apply Hsub|done].
Qed.

Lemma MakeTxChecker_pointersLogged (l : list Transaction) (tx : Transaction)
    (bc : BlockChain) :
  tx ∈ l → pointersLogged l (state bc) →
  pointersLogged l (state (MakeTxChecker tx bc).2).
Proof.
  intros Hin Hp. destruct (MakeTxChecker_state tx bc) as [->|(_ & Hk & _)];
    [done|].
  intros k ks. rewrite Hk, lookup_insert.
  destruct (decide (KittyID tx = k)) as [_|_]; [|apply Hp].
  intros [= <-]. by exists tx.
Qed.

Lemma replay_pointersLogged (l log : list Transaction) (bc : BlockChain) :
  l ⊆ log → pointersLogged log (state bc) →
  pointersLogged log (state (replay l bc).2).
Proof.
  revert bc. induction l as [|tx l IH]; intros bc Hsub Hp; [done|].
  rewrite replay_cons.
  pose proof (MakeTxChecker_pointersLogged log tx bc) as Hc.
  destruct (MakeTxChecker tx bc) as [[[]| |] bc'] eqn:Hchk; simpl in *.
  - apply IH; [set_solver|]. apply Hc; [set_solver|done].
  - apply Hc; [set_solver|done].
  - apply Hc; [set_solver|done].
Qed.

Lemma InjectTx_pointersLogged (tx : Transaction) (bc : BlockChain) :
  pointersLogged (txs (chain bc)) (state bc) →
  pointersLogged (txs (chain (InjectTx tx bc).2)) (state (InjectTx tx bc).2).
Proof.
  intros Hp. rewrite InjectTx_unfold.
  pose proof (MakeTxChecker_pointersLogged (txs (chain bc) ++ [tx]) tx bc) as Hc.
  pose proof (MakeTxChecker_frame tx bc) as [Hchain _].
  pose proof (MakeTxChecker_not_done tx bc) as Hnd.
  destruct (MakeTxChecker tx bc) as [[[]| |] bc'] eqn:Hchk; simpl in *.
  - rewrite Hchain. apply Hc; [set_solver|].
    eapply pointersLogged_mono; [|done]. set_solver.
  - rewrite Hchain, Hnd; done.
  - rewrite Hchain, Hnd; done.
Qed.

Lemma injectEach_pointersLogged (l : list Transaction) (bc : BlockChain) :
  pointersLogged (txs (chain bc)) (state bc) →
  pointersLogged (txs (chain (injectEach l bc))) (state (injectEach l bc)).
Proof.
  revert bc. induction l as [|tx l IH]; intros bc Hp; [done|].
  simpl. apply IH. by apply InjectTx_pointersLogged.
Qed.

Lemma pointersLogged_unspentOf (bc : BlockChain) (tx : Transaction) :
  pointersLogged (txs (chain bc)) (state bc) →
  ∃ unspent, unspentOf bc tx = inr unspent.
Proof.
  intros Hp. unfold unspentOf, GetKittyUnspentTx.
  destruct (kitties (state bc) !! KittyID tx) as [ks|] eqn:Hk; simpl;
    [|by eexists].
  destruct (Hp _ _ Hk) as (t & Hin & Hh).
  destruct (GetTxOfHash_elem_of (chain bc) t Hin) as (temp & Hg & _).
  rewrite <- Hh, Hg. by eexists.
Qed.

Lemma replayed_subseteq (db : ChainDB) : replayed db ⊆ txs db.
Proof.
  unfold replayed. intros tx Hin.
  apply subseteq_take in Hin. by apply subseteq_drop in Hin.
Qed.

(** X5. On an engine built by [NewBlockChain] over any log and an empty
    projection, and after any injections, whatever their outcomes, every
    unspent hash the projection records is the hash of a logged
    transaction, so the checker's fetch of the unspent transaction from
    the chain never fails. *)
Theorem unspent_lookup_never_fails (config : BlockChainConfig)
    (chainDB : ChainDB) (sys : Sys) (l : list Transaction) (tx : Transaction) :
  NewBlockChain config chainDB emptyState = Some (Done sys) →
  pointersLogged (txs (chain (injectEach l (engine sys))))
    (state (injectEach l (engine sys))) ∧
  ∃ unspent, unspentOf (injectEach l (engine sys)) tx = inr unspent.
Proof.
  rewrite NewBlockChain_unfold.
  destruct (Prepare config) as [config' [e|]]; [done|].
  pose proof (replay_frame (replayed chainDB)
                (mkBlockChain config' chainDB emptyState [])) as [Hchain _].
  pose proof (replay_pointersLogged (replayed chainDB) (txs chainDB)
                (mkBlockChain config' chainDB emptyState [])
                (replayed_subseteq chainDB)) as Hp.
  destruct (replay _ _) as [[[]| |] bc'] eqn:Hr; intros [=]; subst.
  simpl in *.
  assert (Hinv : pointersLogged (txs (chain bc')) (state bc')).
  { rewrite Hchain. apply Hp. intros k ks Hk.
    unfold emptyState in Hk. simpl in Hk. by rewrite lookup_empty in Hk. }
  apply (injectEach_pointersLogged l) in Hinv.
  split; [done|]. by apply pointersLogged_unspentOf.
Qed.


(** X7. [InitState] always returns and never writes the log or the
    configuration; it does not roll back: when the replay stops at a
    transaction, the error is that transaction's and the projection is
    left as the transactions before it made it. *)
Theorem InitState_stops_without_rollback (bc : BlockChain) :
  ∃ r bc',
    InitState bc = Some (r, bc') ∧
    chain bc' = chain bc ∧ c bc' = c bc ∧
    ∀ pre tx post bc1,
      replayed (chain bc) = pre ++ tx :: post →
      replay pre bc = (Done (), bc1) →
      (MakeTxChecker tx bc1).1 ≠ Done () →
      r = (MakeTxChecker tx bc1).1 ∧ state bc' = state bc1.
Proof.
  rewrite InitState_replay.
  pose proof (replay_frame (replayed (chain bc)) bc) as [Hchain Hc].
  destruct (replay (replayed (chain bc)) bc) as [r bc'] eqn:Hr.
  exists r, bc'. split; [done|]. split; [done|]. split; [done|].
  intros pre tx post bc1 Hsplit Hpre Hfail.
  rewrite Hsplit, replay_app, Hpre, replay_cons in Hr.
  pose proof (MakeTxChecker_not_done tx bc1 Hfail) as Hs.
  destruct (MakeTxChecker tx bc1) as [[[]| |] bc2]; simpl in *;
    try done; by simplify_eq.
Qed.

(** X8. What an accepted injection leaves for the readers: the
    transaction is the head and sits at the sequence that was the length,
    the length is one more, every sequence that was readable reads the
    same, the kitty's record holds the output and the hash, the kitty is
    listed under that address, and the lookup by the hash finds a
    transaction of that hash. *)
Theorem accepted_injection_is_readable (tx : Transaction)
    (bc bc' : BlockChain) :
  InjectTx tx bc = (Done (), bc') →
  N.of_nat (length (txs (chain bc'))) < uint64_mod →
  GetHeadTx bc' = inr tx ∧
  BlockChain_GetTxOfSeq bc' (Len (chain bc)) = inr tx ∧
  Len (chain bc') = Len (chain bc) + 1 ∧
  (∀ seq t, BlockChain_GetTxOfSeq bc seq = inr t →
            BlockChain_GetTxOfSeq bc' seq = inr t) ∧
  BlockChain_GetKittyState bc' (KittyID tx)
    = Some (mkKittyState (Out tx) (Hash tx)) ∧
  KittyID tx ∈ BlockChain_GetAddressState bc' (Out tx) ∧
  ∃ t, BlockChain_GetTxOfHash bc' (Hash tx) = inr t ∧ Hash t = Hash tx.
Proof.
  intros Hi Hsmall.
  destruct (InjectTx_done tx bc bc' Hi) as (unspent & s' & _ & _ & Ha & ->).
  simpl in Hsmall. rewrite length_app in Hsmall. simpl in Hsmall.
  unfold GetHeadTx, BlockChain_GetTxOfSeq, BlockChain_GetKittyState,
    BlockChain_GetAddressState, BlockChain_GetTxOfHash, Head, GetTxOfSeq.
  simpl. rewrite (Len_small (chain bc)) by lia.
  split; [by rewrite last_snoc|].
  split.
  { rewrite Nat2N.id, lookup_app_r by done.
    by rewrite Nat.sub_diag. }
  split.
  { unfold Len, wrap64. simpl. rewrite length_app. simpl.
    rewrite !N.mod_small by lia. lia. }
  split.
  { intros seq t Hseq.
    destruct (txs (chain bc) !! N.to_nat seq) as [t'|] eqn:Hl; [|done].
    by rewrite (lookup_app_l_Some _ _ _ _ Hl). }
  split; [by eapply applyTx_done|].
  split; [by eapply applyTx_kitties|].
  apply GetTxOfHash_elem_of. simpl. apply elem_of_app. right.
  by apply list_elem_of_singleton.
Qed.

End EngineFacts.

Section DispatcherFacts.
Context `{Cipher}.

Lemma run_app (l1 l2 : list Action) (s : Sys) :
  run (l1 ++ l2) s = match run l1 s with Some s1 => run l2 s1 | None => None end.
Proof.
  revert s. induction l1 as [|a l1 IH]; intros s; simpl; [done|].
  destruct (act a s); [apply IH|done].
Qed.

(** One action keeps the hook, and adds to the notifications exactly what
    it adds to the log. *)
Lemma act_notified (a : Action) (s s' : Sys) :
  is_Some (TxAction (c (engine s))) →
  act a s = Some s' →
  c (engine s') = c (engine s) ∧
  ∃ added,
    txs (chain (engine s')) = txs (chain (engine s)) ++ added ∧
    notified s' = notified s ++ added.
Proof.
  intros [action Hhook]. unfold notified. destruct a as [tx| |m]; simpl.
  - pose proof (InjectTx_config tx (engine s)) as Hc.
    pose proof (InjectTx_not_done tx (engine s)) as Hnd.
    destruct (InjectTx tx (engine s)) as [[[]| |] bc'] eqn:Hi;
      intros [= <-]; simpl in *; (split; [done|]).
    + destruct (InjectTx_done _ _ _ Hi) as (? & ? & _ & _ & _ & ->).
      exists [tx]. simpl. by rewrite <- !app_assoc.
    + destruct Hnd as [-> _]; [done|]. exists []. by rewrite !app_nil_r.
  - unfold Close. destruct (quit s); intros [= <-]. simpl.
    split; [done|]. exists []. by rewrite !app_nil_r.
  - unfold service, takeNotification.
    destruct (disp s) as [|tx| |p] eqn:Hd, m; try done.
    + destruct (quit s); intros [= <-]. simpl.
      split; [done|]. exists []. by rewrite !app_nil_r.
    + destruct (txChan (chain (engine s))) as [|tx rest] eqn:Hq;
        intros [= <-]. simpl.
      split; [done|]. exists []. by rewrite !app_nil_r.
    + rewrite Hhook. destruct (action tx); intros [= <-]; simpl;
        (split; [done|]); exists []; rewrite !app_nil_r, fmap_app; simpl;
        by rewrite <- app_assoc.
Qed.

(** X9. With the hook set, whatever callers, owner and dispatcher do, the
    notifications handled, in hand and still queued are, in order, those
    that were there followed by the transactions the log has gained:
    none is lost, none comes twice, and the dispatch order is the append
    order. *)
Theorem notifications_follow_the_log (schedule : list Action) (s s' : Sys) :
  is_Some (TxAction (c (engine s))) →
  run schedule s = Some s' →
  ∃ added,
    txs (chain (engine s')) = txs (chain (engine s)) ++ added ∧
    notified s' = notified s ++ added.
Proof.
  revert s. induction schedule as [|a rest IH]; intros s Hhook; simpl.
  - intros [= <-]. exists []. by rewrite !app_nil_r.
  - destruct (act a s) as [s1|] eqn:Ha; [|done]. intros Hrun.
    destruct (act_notified a s s1 Hhook Ha) as (Hc & added1 & Ht1 & Hn1).
    destruct (IH s1) as (added2 & Ht2 & Hn2); [by rewrite Hc|done|].
    exists (added1 ++ added2).
    by rewrite Ht2, Hn2, Ht1, Hn1, <- !app_assoc.
Qed.

Lemma act_accounted (a : Action) (s s' : Sys) :
  accounted s → act a s = Some s' → accounted s'.
Proof.
  unfold accounted. intros (Hwg & Hret & Hq). destruct a as [tx| |m]; simpl.
  - destruct (InjectTx tx (engine s)) as [[[]| |] bc']; intros [= <-];
      simpl; done.
  - unfold Close. destruct (quit s) eqn:Hquit; intros [= <-]. simpl.
    split; [done|]. split; [|done]. done.
  - unfold service, takeNotification.
    destruct (disp s) as [|tx| |p] eqn:Hd, m; try done; simpl in *.
    + destruct (quit s) eqn:Hquit; intros [= <-]. simpl.
      rewrite Hwg. split; [done|]. split; [|done]. intros _. by rewrite <- Hq.
    + destruct (txChan (chain (engine s))); intros [= <-]. simpl.
      split; [done|]. split; [|done]. done.
    + destruct (TxAction (c (engine s))) as [action|].
      * destruct (action tx); intros [= <-]; simpl; rewrite ?Hwg;
          (split; [done|]); (split; [|done]); done.
      * intros [= <-]. simpl. rewrite Hwg.
        split; [done|]. split; [|done]. done.
Qed.

(** X10. On an engine built by [NewBlockChain], after any schedule, the
    wait group counts one while the dispatcher runs and zero once it has
    returned or panicked, and the dispatcher has returned only if [Close]
    was called: [quit] is closed exactly when [Close] has returned. *)
Theorem dispatcher_is_accounted_for (config : BlockChainConfig)
    (chainDB : ChainDB) (stateDB : StateDB) (sys s' : Sys)
    (schedule : list Action) :
  NewBlockChain config chainDB stateDB = Some (Done sys) →
  run schedule sys = Some s' →
  accounted s'.
Proof.
  intros Hnew.
  assert (Hinit : accounted sys).
  { rewrite NewBlockChain_unfold in Hnew.
    destruct (Prepare config) as [config' [e|]]; [done|].
    destruct (replay _ _) as [[[]| |] bc']; simplify_eq. by repeat split. }
  clear Hnew. revert sys Hinit.
  induction schedule as [|a rest IH]; intros s Hacc; simpl.
  - by intros [= <-].
  - destruct (act a s) as [s1|] eqn:Ha; [|done].
    apply IH. by eapply act_accounted.
Qed.



Lemma act_quit (a : Action) (s s' : Sys) :
  quit s = true → act a s = Some s' → quit s' = true.
Proof.
  intros Hq. destruct a as [tx| |m]; simpl.
  - destruct (InjectTx tx (engine s)) as [[[]| |] bc']; by intros [= <-].
  - unfold Close. by rewrite Hq.
  - unfold service, takeNotification.
    destruct (disp s), m; try done.
    + rewrite Hq. by intros [= <-].
    + destruct (txChan (chain (engine s))); by intros [= <-].
    + destruct (TxAction (c (engine s))) as [action|];
        [destruct (action tx)|]; by intros [= <-].
Qed.

Lemma run_quit (schedule : list Action) (s s' : Sys) :
  quit s = true → run schedule s = Some s' → quit s' = true.
Proof.
  revert s. induction schedule as [|a rest IH]; intros s Hq; simpl.
  - by intros [= <-].
  - destruct (act a s) as [s1|] eqn:Ha; [|done].
    apply IH. by eapply act_quit.
Qed.

(** X12. [Close] is good for one call: after a first [Close], whatever
    happens in between, a second [Close] panics on the closed channel, so
    no schedule survives it. *)
Theorem second_Close_panics (before between : list Action) (s s1 : Sys) :
  run (before ++ [DoClose] ++ between) s = Some s1 →
  (Close s1).1 = Panic CloseOfClosedChannel ∧
  run (before ++ [DoClose] ++ between ++ [DoClose]) s = None.
Proof.
  intros Hrun.
  assert (Hq : quit s1 = true).
  { rewrite !run_app in Hrun.
    destruct (run before s) as [s0|]; [|done]. simpl in Hrun.
    unfold Close in Hrun.
    destruct (quit s0) eqn:Hq0; [done|]. simpl in Hrun.
    by eapply run_quit in Hrun. }
  split.
  - unfold Close. by rewrite Hq.
  - rewrite !app_assoc, run_app, <- !app_assoc, Hrun. simpl.
    unfold Close. by rewrite Hq.
Qed.

End DispatcherFacts.

Section KchainLifeFacts.
Context `{KchainLife.Log}.

(** X13. In [kchain] an injection that returns an error has changed
    neither chain nor state; one that panics does so because the append
    failed after the state was written: the chain is as it was, the state
    is not rolled back, and the history ends with the write. *)
Theorem kchain_inject_failures (tx : Kchain.Tx) (bc : Kchain.Engine) :
  (∀ e, (Kchain.InjectTx tx bc).1 = Kchain.Rejected e →
     Kchain.log (Kchain.InjectTx tx bc).2 = Kchain.log bc ∧
     Kchain.view (Kchain.InjectTx tx bc).2 = Kchain.view bc) ∧
  (∀ e, (Kchain.InjectTx tx bc).1 = Kchain.Died e →
     Kchain.ChainAddTx tx (Kchain.log bc) = inl e ∧
     Kchain.log (Kchain.InjectTx tx bc).2 = Kchain.log bc ∧
     (if Kchain.TxIsKittyGen tx (Kchain.creator bc)
      then Kchain.StateAddKitty (Kchain.TxKittyID tx) (Kchain.TxTo tx)
             (Kchain.view bc)
      else Kchain.StateMoveKitty (Kchain.TxKittyID tx) (Kchain.TxFrom tx)
             (Kchain.TxTo tx) (Kchain.view bc))
     = inr (Kchain.view (Kchain.InjectTx tx bc).2) ∧
     last (Kchain.history (Kchain.InjectTx tx bc).2)
     = Some (Kchain.Applied tx)).
Proof.
  unfold Kchain.InjectTx.
  destruct (Kchain.TxVerify tx _) as [e0|]; [by split|].
  destruct (if Kchain.TxIsKittyGen tx (Kchain.creator bc) then _ else _)
    as [e0|s'] eqn:Hw; [by split|].
  destruct (Kchain.ChainAddTx tx (Kchain.log bc)) as [e0|db'] eqn:Ha;
    [|by split].
  split; [done|]. intros e [= <-]. simpl.
  split; [done|]. split; [done|]. split; [done|]. apply last_snoc.
Qed.

Lemma kchain_loop_spec (fuel : nat) (i : N) (bc : Kchain.Engine) :
  (N.to_nat (KchainLife.ChainLen (Kchain.log bc) - i) < fuel)%nat →
  ∃ r bc' extra,
    KchainLife.InitState_loop fuel i bc = Some (r, bc') ∧
    Kchain.log bc' = Kchain.log bc ∧
    Kchain.creator bc' = Kchain.creator bc ∧
    Kchain.history bc' = Kchain.history bc ++ extra ∧
    (∀ tx prev, Kchain.Verified tx prev ∈ extra → prev = None) ∧
    (∀ tx, Kchain.Appended tx ∉ extra).
Proof.
  revert i bc. induction fuel as [|fuel IH]; intros i bc Hfuel; [lia|].
  simpl.
  assert (Hnil : ∀ r, ∃ (r0 : Kchain.Result) (bc' : Kchain.Engine)
                   (extra : list Kchain.Call),
            Some (r, bc) = Some (r0, bc') ∧
            Kchain.log bc' = Kchain.log bc ∧
            Kchain.creator bc' = Kchain.creator bc ∧
            Kchain.history bc' = Kchain.history bc ++ extra ∧
            (∀ tx prev, Kchain.Verified tx prev ∈ extra → prev = None) ∧
            (∀ tx, Kchain.Appended tx ∉ extra)).
  { intros r. exists r, bc, []. rewrite app_nil_r.
    repeat split; try done.
    - by intros ? ? ?%elem_of_nil.
    - by intros ? ?%elem_of_nil. }
  destruct (N.ltb_spec i (KchainLife.ChainLen (Kchain.log bc))) as [Hlt|Hge];
    [|apply Hnil].
  destruct (KchainLife.ChainGetTxOfSeq (Kchain.log bc) i) as [e|tx];
    [apply Hnil|].
  assert (Hone : ∀ tx0 prev, Kchain.Verified tx0 prev ∈ [Kchain.Verified tx None]
                   → prev = None).
  { intros tx0 prev Hin. apply list_elem_of_singleton in Hin. congruence. }
  assert (Hnoapp : ∀ tx0, Kchain.Appended tx0 ∉ [Kchain.Verified tx None]).
  { intros tx0 Hin. apply list_elem_of_singleton in Hin. congruence. }
  destruct (Kchain.TxVerify tx None) as [e|].
  { eexists _, _, [Kchain.Verified tx None]. by repeat split. }
  destruct (if Kchain.TxIsKittyGen tx (Kchain.creator bc) then _ else _)
    as [e|s'].
  { eexists _, _, [Kchain.Verified tx None]. by repeat split. }
  pose proof (KchainLife.ChainLen_uint64 (Kchain.log bc)) as Hmax.
  assert (Hnext : add64 i 1 = i + 1).
  { unfold add64, wrap64. apply N.mod_small. lia. }
  rewrite Hnext.
  destruct (IH (i + 1)
              (Kchain.mkEngine (Kchain.creator bc) (Kchain.log bc) s'
                 ((Kchain.history bc ++ [Kchain.Verified tx None])
                  ++ [Kchain.Applied tx])))
    as (r & bc' & extra & Hloop & Hlog & Hcr & Hhist & Hver & Happ).
  { simpl. lia. }
  simpl in *.
  exists r, bc', ([Kchain.Verified tx None; Kchain.Applied tx] ++ extra).
  split; [done|]. split; [done|]. split; [done|].
  split; [by rewrite Hhist, <- !app_assoc|]. split.
  - intros tx0 prev Hin. apply elem_of_app in Hin as [Hin|Hin];
      [|by eapply Hver].
    apply elem_of_cons in Hin as [Hin|Hin]; [congruence|].
    apply list_elem_of_singleton in Hin. congruence.
  - intros tx0 Hin. apply elem_of_app in Hin as [Hin|Hin];
      [|by eapply Happ].
    apply elem_of_cons in Hin as [Hin|Hin]; [congruence|].
    apply list_elem_of_singleton in Hin. congruence.
Qed.

Lemma kchain_InitState_spec (bc : Kchain.Engine) :
  ∃ r bc' extra,
    KchainLife.InitState bc = Some (r, bc') ∧
    Kchain.log bc' = Kchain.log bc ∧
    Kchain.creator bc' = Kchain.creator bc ∧
    Kchain.history bc' = Kchain.history bc ++ extra ∧
    (∀ tx prev, Kchain.Verified tx prev ∈ extra → prev = None) ∧
    (∀ tx, Kchain.Appended tx ∉ extra).
Proof. apply kchain_loop_spec. lia. Qed.

(** X14. The replay of [kchain] always returns, leaves chain and issuer
    key alone and appends nothing; every verification it makes is against
    no predecessor, whatever stands before the transaction in the log. *)
Theorem kchain_replay_verifies_against_nil (bc : Kchain.Engine) :
  ∃ r bc' extra,
    KchainLife.InitState bc = Some (r, bc') ∧
    Kchain.log bc' = Kchain.log bc ∧
    Kchain.creator bc' = Kchain.creator bc ∧
    Kchain.history bc' = Kchain.history bc ++ extra ∧
    (∀ tx prev, Kchain.Verified tx prev ∈ extra → prev = None) ∧
    (∀ tx, Kchain.Appended tx ∉ extra).
Proof. apply kchain_InitState_spec. Qed.

(** X15. Construction in [kchain] always returns and hands the
    configuration on as it came: it does not call [Prepare], so a nil
    hook stays nil, and the dispatcher of such an engine panics on a nil
    call at the first notification it receives. *)
Theorem kchain_nil_hook_survives (config : KchainLife.Config)
    (chainDB : Kchain.Chain) (stateDB : Kchain.State) :
  (∃ res, KchainLife.NewBlockChain config chainDB stateDB = Some res) ∧
  (∀ r, KchainLife.NewBlockChain config chainDB stateDB = Some (inr r) →
     KchainLife.kconfig r = config ∧
     Kchain.log (KchainLife.kengine r) = chainDB ∧
     (KchainLife.KTxAction config = None →
      ∀ tx, KchainLife.deliver r tx = Some NilCall)).
Proof.
  unfold KchainLife.NewBlockChain.
  destruct (kchain_InitState_spec
              (Kchain.mkEngine (KchainLife.KCreatorPK config) chainDB stateDB []))
    as (r0 & bc' & extra & -> & Hlog & _).
  split; [destruct r0; by eexists|].
  intros r Hr. destruct r0; simplify_eq. simpl.
  split; [done|]. split; [done|].
  intros Hnil tx. unfold KchainLife.deliver. simpl. by rewrite Hnil.
Qed.

End KchainLifeFacts.

(** ** The further properties on concrete cases *)

Section MoreChecks.
Import Scenario Cases.

Lemma totalPageCount_monotone_witness :
  ∃ n1 n2,
    totalPageCount 25 10 = Done n1 ∧ totalPageCount 31 10 = Done n2 ∧
    n1 ≤ n2 ∧ n2 ≤ 31 ∧ (n2 = 0 ↔ 31 = 0).
Proof.
  apply (totalPageCount_monotone 25 31 10); [discriminate|lia|].
  vm_compute. reflexivity.
Defined.

Lemma pages_tile_the_log_witness :
  pagesUpTo (N.to_nat (pageCount 1 afterMove)) 1 afterMove = [create; move].
Proof.
  apply (pages_tile_the_log 1 afterMove); [discriminate|].
  vm_compute. reflexivity.
Defined.

Lemma page_empty_iff_beyond_count_witness :
  pageTransactions 2 1 afterMove = [] ↔ pageCount 1 afterMove ≤ 2.
Proof.
  apply (page_empty_iff_beyond_count 2 1 afterMove); [discriminate| |];
    vm_compute; reflexivity.
Defined.

Lemma Prepare_idempotent_witness :
  TxAction (Prepare (mkConfig issuer (Some noAction))).1 = Some noAction.
Proof.
  apply (proj2 (proj2 (proj2 (proj2
           (Prepare_idempotent (mkConfig issuer (Some noAction))))))).
  by eexists.
Defined.

Lemma unspent_lookup_never_fails_witness :
  ∃ unspent,
    unspentOf (injectEach [create; moveAgain; move] (engine running)) move
    = inr unspent.
Proof.
  assert (Hnew : NewBlockChain config (mkChainDB [marker] []) emptyState
                 = Some (Done running)) by (vm_compute; reflexivity).
  exact (proj2 (unspent_lookup_never_fails config (mkChainDB [marker] [])
                  running [create; moveAgain; move] move Hnew)).
Defined.

Lemma InitState_stops_without_rollback_witness :
  ∃ bc', InitState (mkBlockChain config brokenLog emptyState [])
         = Some (Fail UnauthorizedCreation, bc') ∧
         state bc' = emptyState.
Proof.
  destruct (InitState_stops_without_rollback
              (mkBlockChain config brokenLog emptyState []))
    as (r & bc' & Hi & _ & _ & Hstop).
  destruct (Hstop [] orphan [] (mkBlockChain config brokenLog emptyState []))
    as [-> Hs].
  - vm_compute; reflexivity.
  - reflexivity.
  - vm_compute. discriminate.
  - exists bc'. split; [exact Hi|exact Hs].
Defined.

Lemma accepted_injection_is_readable_witness :
  GetHeadTx afterCreate = inr create ∧
  BlockChain_GetTxOfSeq afterCreate 0 = inr create.
Proof.
  destruct (accepted_injection_is_readable create fresh afterCreate)
    as (Hh & Hs & _).
  - vm_compute; reflexivity.
  - vm_compute; reflexivity.
  - split; [exact Hh|exact Hs].
Defined.

Lemma notifications_follow_the_log_witness :
  ∃ s' added,
    run busy running = Some s' ∧
    txs (chain (engine s')) = [marker] ++ added ∧
    notified s' = [] ++ added.
Proof.
  destruct (run busy running) as [s'|] eqn:Hrun;
    [|vm_compute in Hrun; discriminate].
  destruct (notifications_follow_the_log busy running s') as (added & Ht & Hn).
  - by eexists.
  - exact Hrun.
  - exists s', added. split; [done|]. split; [exact Ht|exact Hn].
Defined.

Lemma dispatcher_is_accounted_for_witness :
  ∃ s', run woundUp running = Some s' ∧ accounted s'.
Proof.
  destruct (run woundUp running) as [s'|] eqn:Hrun;
    [|vm_compute in Hrun; discriminate].
  exists s'. split; [done|].
  apply (dispatcher_is_accounted_for config (mkChainDB [marker] []) emptyState
           running s' woundUp); [vm_compute; reflexivity|exact Hrun].
Defined.


Lemma second_Close_panics_witness :
  run ([DoInject create] ++ [DoClose] ++ [DoService SelectQuit] ++ [DoClose])
    running = None.
Proof.
  destruct (run ([DoInject create] ++ [DoClose] ++ [DoService SelectQuit])
              running) as [s1|] eqn:Hrun;
    [|vm_compute in Hrun; discriminate].
  exact (proj2 (second_Close_panics [DoInject create] [DoService SelectQuit]
                  running s1 Hrun)).
Defined.

Lemma kchain_inject_failures_witness :
  (Kchain.InjectTx (9 : N) kfresh).1 = Kchain.Died NotFound ∧
  Kchain.log (Kchain.InjectTx (9 : N) kfresh).2 = [] ∧
  Kchain.view (Kchain.InjectTx (9 : N) kfresh).2 = [9].
Proof.
  assert (Hd : (Kchain.InjectTx (9 : N) kfresh).1 = Kchain.Died NotFound)
    by (vm_compute; reflexivity).
  destruct (proj2 (@kchain_inject_failures toyKchain 9 kfresh) NotFound Hd)
    as (_ & Hlog & _ & _).
  split; [exact Hd|]. split; [exact Hlog|].
  vm_compute. reflexivity.
Defined.

Lemma kchain_replay_verifies_against_nil_witness :
  ∃ bc', KchainLife.InitState klogged = Some (Kchain.Accepted, bc') ∧
         ∀ tx prev, Kchain.Verified tx prev ∈ Kchain.history bc' → prev = None.
Proof.
  destruct (@kchain_replay_verifies_against_nil toyKchain toyLog klogged)
    as (r & bc' & extra & Hi & _ & _ & Hh & Hv & _).
  assert (Hr : r = Kchain.Accepted).
  { vm_compute in Hi. by injection Hi as <- _. }
  subst r. exists bc'. split; [exact Hi|].
  simpl in Hh. rewrite Hh. exact Hv.
Defined.

Lemma kchain_nil_hook_survives_witness :
  ∃ r, KchainLife.NewBlockChain knoHook klog kstate = Some (inr r) ∧
       KchainLife.deliver r (6%N : @Kchain.Tx toyKchain) = Some NilCall.
Proof.
  destruct (KchainLife.NewBlockChain knoHook klog kstate) as [[e|r]|] eqn:Hnew;
    try (vm_compute in Hnew; discriminate).
  exists r. split; [done|].
  by apply (proj2 (@kchain_nil_hook_survives toyKchain toyLog
                     knoHook klog kstate) r Hnew).
Defined.

End MoreChecks.

Section OwnershipFacts.
Context `{Cipher}.

Lemma InjectTx_other_kitty (tx : Transaction) (bc : BlockChain) (kittyID : N) :
  KittyID tx ≠ kittyID →
  GetKittyState (state (InjectTx tx bc).2) kittyID
  = GetKittyState (state bc) kittyID.
Proof.
  intros Hne. rewrite InjectTx_unfold.
  destruct (MakeTxChecker_state tx bc) as [Hs|(_ & Hk & _)];
    destruct (MakeTxChecker tx bc) as [[[]| |] bc'] eqn:Hchk; simpl in *;
    unfold GetKittyState; rewrite ?Hs, ?Hk, ?lookup_insert_ne; done.
Qed.

(** X16. Injections touch the record of their own kitty only: whatever a
    caller injects, a kitty that none of the transactions names keeps its
    owner and its unspent hash. *)
Theorem other_kitties_untouched (l : list Transaction) (bc : BlockChain)
    (kittyID : N) :
  (∀ tx, tx ∈ l → KittyID tx ≠ kittyID) →
  BlockChain_GetKittyState (injectEach l bc) kittyID
  = BlockChain_GetKittyState bc kittyID.
Proof.
  unfold BlockChain_GetKittyState.
  revert bc. induction l as [|tx l IH]; intros bc Hl; [done|].
  simpl. rewrite IH.
  - apply InjectTx_other_kitty. apply Hl. by left.
  - intros t Ht. apply Hl. by right.
Qed.

(** X17. An accepted injection is authorised by what the projection held:
    for a kitty with a record, the input is the recorded unspent hash and
    the signature verifies under the recorded owner; for a kitty without
    one, the input is empty and the signature verifies under the issuer
    key. *)
Theorem accepted_injection_is_authorised (tx : Transaction)
    (bc bc' : BlockChain) :
  InjectTx tx bc = (Done (), bc') →
  match BlockChain_GetKittyState bc (KittyID tx) with
  | Some ks => In tx = Unspent ks ∧ SigByAddress (Owner ks) tx = true
  | None => In tx = EmptyTxHash ∧ SigByPubKey (CreatorPK (c bc)) tx = true
  end.
Proof.
  intros Hi.
  destruct (InjectTx_done tx bc bc' Hi) as (unspent & s' & Hu & Hv & Ha & _).
  unfold BlockChain_GetKittyState, GetKittyState.
  unfold unspentOf, GetKittyUnspentTx in Hu.
  destruct (kitties (state bc) !! KittyID tx) as [ks|] eqn:Hk; simpl in Hu.
  - unfold GetTxOfHash in Hu.
    destruct (list_find _ _) as [[i temp]|] eqn:Hf; [|done].
    injection Hu as <-. apply list_find_Some in Hf as (_ & Hh & _).
    unfold Verify in Hv.
    destruct (decide (In tx = Hash temp)) as [Hin|]; [|done].
    destruct (SigByAddress (Out temp) tx) eqn:Hsig; [|done].
    unfold applyTx, AddKitty, MoveKitty in Ha. rewrite Hk in Ha.
    destruct (IsKittyGen tx (CreatorPK (c bc))); [done|].
    destruct (decide (Owner ks = Out temp)) as [->|]; [|done].
    split; [congruence|done].
  - injection Hu as <-. unfold Verify in Hv.
    destruct (decide (In tx = EmptyTxHash)); [|done].
    by destruct (SigByPubKey (CreatorPK (c bc)) tx).
Qed.

End OwnershipFacts.

Section OwnershipChecks.
Import Scenario Cases.

Lemma other_kitties_untouched_witness :
  BlockChain_GetKittyState (injectEach [orphan] afterMove) 1
  = BlockChain_GetKittyState afterMove 1.
Proof.
  apply (other_kitties_untouched [orphan] afterMove 1).
  intros tx Htx. apply list_elem_of_singleton in Htx. subst tx.
  vm_compute. discriminate.
Defined.

Lemma accepted_injection_is_authorised_witness :
  In move = toyHash create ∧ SigByAddress 50 move = true.
Proof.
  assert (Hi : InjectTx move afterCreate = (Done (), afterMove))
    by (vm_compute; reflexivity).
  exact (accepted_injection_is_authorised move afterCreate afterMove Hi).
Defined.

End OwnershipChecks.
